(** * Rails I18n IntelliSense: the locale index builder and the key resolver

    A shallow embedding of [src/i18nLocalesScanner.ts] (class
    [I18nLocalesScanner]) and of the definition provider's alternative key
    lookup in [src/i18nProvider.ts] (class [I18nProvider]).

    Conventions of the embedding.
    - A JavaScript string is a [string]; a character stands for one UTF-16
      code unit in the range 0..255.  On that range the white space of
      [String.prototype.trim] and of the regular expression class [\s] is the
      same set (9..13, 32 and 160) and the line terminators, which [.] does
      not match, are 10 and 13.
    - [undefined] is [None]; a falsy optional string is [None] or [Some ""].
    - The scanner's field [i18nEntries] is threaded explicitly: a method that
      pushes entries returns the entries it pushes, in push order.
    - [yaml.parse], [fs] and [vscode] are the platform's: a parsed document,
      the text of a file and the outcome of parsing are inputs. *)

From Stdlib Require Import String Ascii List Bool Arith ZArith Lia.
From Stdlib Require Import Permutation Sorted RelationClasses.
Import ListNotations.

Set Warnings "-register-all".

Open Scope string_scope.
Open Scope list_scope.
Open Scope nat_scope.

(** ** JavaScript string primitives *)

Module Js.

Definition chars (s : string) : list ascii := list_ascii_of_string s.
Definition str (l : list ascii) : string := string_of_list_ascii l.

Definition code (c : ascii) : nat := nat_of_ascii c.

(** WhiteSpace and LineTerminator of ECMAScript, below code unit 256. *)
Definition isSpace (c : ascii) : bool :=
  let n := code c in
  ((9 <=? n) && (n <=? 13)) || (n =? 32) || (n =? 160).

Definition isLineTerminator (c : ascii) : bool :=
  let n := code c in (n =? 10) || (n =? 13).

(** [[a-z]] under the flag [i]. *)
Definition isLetter (c : ascii) : bool :=
  let n := code c in
  ((97 <=? n) && (n <=? 122)) || ((65 <=? n) && (n <=? 90)).

Definition lowerChar (c : ascii) : ascii :=
  let n := code c in
  if (65 <=? n) && (n <=? 90) then ascii_of_nat (n + 32) else c.

(** [s.toLowerCase()]; the source applies it to two-letter codes only. *)
Fixpoint toLowerCase (s : string) : string :=
  match s with
  | EmptyString => EmptyString
  | String c r => String (lowerChar c) (toLowerCase r)
  end.

Fixpoint takeWhile (p : ascii -> bool) (s : string) : string :=
  match s with
  | EmptyString => EmptyString
  | String c r => if p c then String c (takeWhile p r) else EmptyString
  end.

Fixpoint dropWhile (p : ascii -> bool) (s : string) : string :=
  match s with
  | EmptyString => EmptyString
  | String c r => if p c then dropWhile p r else s
  end.

Fixpoint drop (n : nat) (s : string) : string :=
  match n, s with
  | 0, _ => s
  | S m, EmptyString => EmptyString
  | S m, String _ r => drop m r
  end.

Fixpoint allChars (p : ascii -> bool) (s : string) : bool :=
  match s with
  | EmptyString => true
  | String c r => p c && allChars p r
  end.

Definition reverse (s : string) : string := str (rev (chars s)).

Definition trimStart (s : string) : string := dropWhile isSpace s.
Definition trimEnd (s : string) : string :=
  reverse (dropWhile isSpace (reverse s)).
Definition trim (s : string) : string := trimStart (trimEnd s).

(** [s.startsWith(p)] and [s.endsWith(p)]. *)
Definition startsWith (s p : string) : bool := String.prefix p s.
Definition endsWith (s p : string) : bool :=
  String.prefix (reverse p) (reverse s).

(** [s.includes(p)]. *)
Fixpoint includes (s p : string) : bool :=
  String.prefix p s ||
  match s with
  | EmptyString => false
  | String _ r => includes r p
  end.

(** [s.split(c)] for a one-character separator: never the empty array. *)
Fixpoint splitChar (sep : ascii) (s : string) : list string :=
  match s with
  | EmptyString => [EmptyString]
  | String c r =>
      if Ascii.eqb c sep then EmptyString :: splitChar sep r
      else match splitChar sep r with
           | [] => [String c EmptyString]
           | seg :: segs => String c seg :: segs
           end
  end.

(** [s.split(p)[0]]: the text before the first occurrence of [p]. *)
Fixpoint beforeFirst (p s : string) : string :=
  if String.prefix p s then EmptyString
  else match s with
       | EmptyString => EmptyString
       | String c r => String c (beforeFirst p r)
       end.

(** [parts.join(sep)]. *)
Definition join (sep : string) (parts : list string) : string :=
  String.concat sep parts.

(** [s.substring(a, b)]: the arguments are clamped and swapped if needed. *)
Definition substring (a b : nat) (s : string) : string :=
  let n := String.length s in
  let a' := Nat.min a n in
  let b' := Nat.min b n in
  String.substring (Nat.min a' b') (Nat.max a' b' - Nat.min a' b') s.

(** [arr.slice(-n)] and [arr.slice(0, -n)]. *)
Definition sliceLast {A} (n : nat) (l : list A) : list A :=
  skipn (List.length l - n) l.
Definition sliceButLast {A} (n : nat) (l : list A) : list A :=
  firstn (List.length l - n) l.

(** A greedy quantifier under backtracking: the longest repetition is tried
    first, then each shorter one down to none. *)
Fixpoint tryDown {A} (n : nat) (f : nat -> option A) : option A :=
  match f n with
  | Some a => Some a
  | None => match n with
            | 0 => None
            | S m => tryDown m f
            end
  end.

(** A [Map<string, V>]: insertion order is kept, [set] on a present key
    replaces the value in place. *)
Definition Map (V : Type) : Type := list (string * V).

Fixpoint mapSet {V} (k : string) (v : V) (m : Map V) : Map V :=
  match m with
  | [] => [(k, v)]
  | (k', v') :: tl =>
      if String.eqb k' k then (k, v) :: tl else (k', v') :: mapSet k v tl
  end.

Fixpoint mapGet {V} (k : string) (m : Map V) : option V :=
  match m with
  | [] => None
  | (k', v) :: tl => if String.eqb k' k then Some v else mapGet k tl
  end.

Definition mapValues {V} (m : Map V) : list V := List.map snd m.

(** A falsy optional string: [undefined] or the empty string. *)
Definition falsy (o : option string) : bool :=
  match o with
  | None => true
  | Some s => String.eqb s ""
  end.

(** [Array.prototype.sort(cmp)]: a stable sort, by insertion. *)
Fixpoint insertBy {A} (cmp : A -> A -> Z) (x : A) (l : list A) : list A :=
  match l with
  | [] => [x]
  | y :: tl => if (cmp x y <=? 0)%Z then x :: y :: tl
               else y :: insertBy cmp x tl
  end.

Fixpoint sortBy {A} (cmp : A -> A -> Z) (l : list A) : list A :=
  match l with
  | [] => []
  | x :: tl => insertBy cmp x (sortBy cmp tl)
  end.

End Js.

(** ** The locale scanner: [I18nLocalesScanner] *)

Module Scanner.
Import Js.

Record I18nEntry : Type := mkEntry {
  key : string;
  value : string;
  file : string;
  lang : option string;
  fileLine : option nat
}.

(** *** Regular expressions of the scanner *)

(** [/^([a-z]{2})[\._]/i]: the first capture. *)
Definition matchLangPrefix (fileName : string) : option string :=
  match fileName with
  | String a (String b (String c _)) =>
      if isLetter a && isLetter b
         && (Ascii.eqb c "."%char || Ascii.eqb c "_"%char)
      then Some (String a (String b EmptyString))
      else None
  | _ => None
  end.

(** [/^[a-z]{2}$/i.test(key)]. *)
Definition isLanguageCode (k : string) : bool :=
  match k with
  | String a (String b EmptyString) => isLetter a && isLetter b
  | _ => false
  end.

(** [/^([a-z]{2})\.(.+)$/i]: both captures.  The second is not empty and,
    as [.] stops at a line terminator and [$] is the end of the text, holds
    no line terminator. *)
Definition matchLangKey (k : string) : option (string * string) :=
  match k with
  | String a (String b (String c rest)) =>
      if isLetter a && isLetter b && Ascii.eqb c "."%char
         && negb (String.eqb rest EmptyString)
         && allChars (fun x => negb (isLineTerminator x)) rest
      then Some (String a (String b EmptyString), rest)
      else None
  | _ => None
  end.

(** The colon after the key, greedy white space and the value capture up to
    the end of the text: the white space gives back under backtracking, the
    capture holds no line terminator.  An unset capture reads as the empty
    string in both callers. *)
Definition matchColonValue (s : string) : option string :=
  match s with
  | String c t =>
      if Ascii.eqb c ":"%char then
        tryDown (String.length (takeWhile isSpace t))
          (fun n =>
             let r := drop n t in
             if allChars (fun x => negb (isLineTerminator x)) r
             then Some r else None)
      else None
  | EmptyString => None
  end.

(** The key capture [([^:]+)] and what follows it: the class excludes the
    colon, so only its longest run can be followed by one. *)
Definition matchKeyValue (s : string) : option (string * string) :=
  let k := takeWhile (fun x => negb (Ascii.eqb x ":"%char)) s in
  if String.eqb k EmptyString then None
  else match matchColonValue (drop (String.length k) s) with
       | Some v => Some (k, v)
       | None => None
       end.

(** The key-value pattern of [extractKeyPositions] (line 238) and of
    [attemptPartialParsing] (line 280): a capture of leading white space, a
    capture of one or more non-colons, a colon, white space, a capture of the
    rest of the line.  The result is the length of the first capture, then
    the second and third captures. *)
Definition matchKeyLine (line : string) : option (nat * string * string) :=
  tryDown (String.length (takeWhile isSpace line))
    (fun n =>
       match matchKeyValue (drop n line) with
       | Some (k, v) => Some (n, k, v)
       | None => None
       end).

(** *** File names *)

(** [path.basename(filePath)] of a path that does not end in a separator. *)
Definition basename (filePath : string) : string :=
  List.last (splitChar "/"%char filePath) EmptyString.

Definition getLangFromFileName (fileName : string) : option string :=
  match matchLangPrefix fileName with
  | Some c => Some (toLowerCase c)
  | None => None
  end.

(** *** The Position Extractor: [extractKeyPositions] *)

(** [while (keyStack.length > 0 && indentLevel <= keyStack.length * 2)
    keyStack.pop()]; the stack grows at its end, as the array does. *)
Fixpoint popKeyStack (fuel indentLevel : nat) (keyStack : list string)
  : list string :=
  match fuel with
  | 0 => keyStack
  | S f =>
      if (0 <? List.length keyStack)
         && (indentLevel <=? List.length keyStack * 2)
      then popKeyStack f indentLevel (removelast keyStack)
      else keyStack
  end.

(** One turn of the loop: the stack after the line and the path recorded at
    it, if any. *)
Definition scanKeyLine (keyStack : list string) (rawLine : string)
  : list string * option string :=
  let line := trim rawLine in
  if String.eqb line EmptyString || startsWith line "#" then (keyStack, None)
  else
    match matchKeyLine line with
    | Some (indentLevel, k, v) =>
        let key := trim k in
        let value := trim v in
        let keyStack :=
          popKeyStack (List.length keyStack) indentLevel keyStack ++ [key] in
        if negb (String.eqb value EmptyString) && negb (String.eqb value "~")
        then (keyStack, Some (join "." keyStack))
        else (keyStack, None)
    | None => (keyStack, None)
    end.

Fixpoint extractLoop (i : nat) (lines : list string) (keyStack : list string)
    (keyPositions : Map nat) : Map nat :=
  match lines with
  | [] => keyPositions
  | rawLine :: rest =>
      let '(keyStack', recorded) := scanKeyLine keyStack rawLine in
      extractLoop (S i) rest keyStack'
        (match recorded with
         | Some fullKey => mapSet fullKey (i + 1) keyPositions
         | None => keyPositions
         end)
  end.

Definition extractKeyPositions (content : string) : Map nat :=
  extractLoop 0 (splitChar "010"%char content) [] [].

(** *** Line-number lookup: [findLineNumber] *)

Definition findSuffix (suffix : string) (keyPositions : Map nat)
  : option nat :=
  match List.find (fun p => endsWith (fst p) suffix) keyPositions with
  | Some (_, posLine) => Some posLine
  | None => None
  end.

Definition findLineNumber (keyPositions : option (Map nat)) (k : string)
  : option nat :=
  match keyPositions with
  | None => None
  | Some positions =>
      if String.eqb k EmptyString then None
      else
        match mapGet k positions with
        | Some n => Some n
        | None =>
            if includes k "." then
              let keyParts := splitChar "."%char k in
              let lastTwoParts := join "." (sliceLast 2 keyParts) in
              match findSuffix lastTwoParts positions with
              | Some n => Some n
              | None =>
                  let lastPart := List.last keyParts EmptyString in
                  findSuffix lastPart positions
              end
            else None
        end
  end.

(** *** Key text: [normalizeDuplicateKeyParts] and [processValue] *)

(** The loop over [parts] from its second element on: [prev] is
    [parts[i-1]]. *)
Fixpoint skipRepeated (prev : string) (parts : list string) : list string :=
  match parts with
  | [] => []
  | p :: rest =>
      if String.eqb p prev then skipRepeated p rest
      else p :: skipRepeated p rest
  end.

Definition normalizedParts (parts : list string) : list string :=
  match parts with
  | [] => []
  | p :: rest => p :: skipRepeated p rest
  end.

Definition normalizeDuplicateKeyParts (k : string) : string :=
  join "." (normalizedParts (splitChar "."%char k)).

Definition dquote : string := String "034"%char EmptyString.
Definition squote : string := String "039"%char EmptyString.

Definition processValue (valueStr : string) : option string :=
  let valueStr := trim valueStr in
  if (startsWith valueStr dquote && endsWith valueStr dquote)
     || (startsWith valueStr squote && endsWith valueStr squote)
  then Some (substring 1 (String.length valueStr - 1) valueStr)
  else if negb (String.eqb valueStr EmptyString) then Some valueStr
  else None.

(** *** The Tree Flattener: [flattenYaml] *)

(** What [yaml.parse] returns.  An object lists its own keys in the order
    [for (const key in obj)] visits them; an array is the object of its
    indices.  A number carries the text [String(value)] gives it.

    A document is a tree: every object sits under one key only.  A text
    with an alias, for which [yaml.parse] places one and the same object
    under two keys, is outside this type; on such a document the
    [delete obj[key]] of [flattenYaml] would show through the second key,
    which a tree cannot express. *)
Inductive yaml : Type :=
| YNull
| YString (s : string)
| YNumber (text : string)
| YBool (b : bool)
| YObject (members : list (string * yaml)).

(** Induction on a document, with the hypothesis on every member of an
    object. *)
Section YamlInduction.
Variable P : yaml -> Prop.
Hypothesis onNull : P YNull.
Hypothesis onString : forall s, P (YString s).
Hypothesis onNumber : forall text, P (YNumber text).
Hypothesis onBool : forall b, P (YBool b).
Hypothesis onObject :
  forall members,
    Forall (fun m => P (snd m)) members -> P (YObject members).

Fixpoint yaml_members_ind (y : yaml) : P y :=
  match y with
  | YNull => onNull
  | YString s => onString s
  | YNumber text => onNumber text
  | YBool b => onBool b
  | YObject members =>
      onObject members
        ((fix all (ms : list (string * yaml))
            : Forall (fun m => P (snd m)) ms :=
            match ms with
            | [] => Forall_nil _
            | m :: rest =>
                Forall_cons m (yaml_members_ind (snd m)) (all rest)
            end) members)
  end.
End YamlInduction.

(** [typeof v === 'object'], which holds of [null] too. *)
Definition typeofObject (v : yaml) : bool :=
  match v with
  | YObject _ | YNull => true
  | _ => false
  end.

(** [String(value)] of a string, number or boolean. *)
Definition scalarText (v : yaml) : option string :=
  match v with
  | YString s => Some s
  | YNumber text => Some text
  | YBool true => Some "true"
  | YBool false => Some "false"
  | _ => None
  end.

Definition prefixed (prefix k : string) : string :=
  if String.eqb prefix EmptyString then k
  else (prefix ++ "." ++ k)%string.

(** The push of one leaf, behind the length guard. *)
Definition flattenLeaf (normalizedKey text filePath : string)
    (lang : option string) (keyPositions : option (Map nat))
  : list I18nEntry :=
  if 200 <? String.length normalizedKey then []
  else [mkEntry normalizedKey text filePath lang
          (findLineNumber keyPositions normalizedKey)].

Fixpoint flattenYaml (obj : yaml) (prefix filePath : string)
    (lang : option string) (keyPositions : option (Map nat)) {struct obj}
  : list I18nEntry :=
  match obj with
  | YObject members =>
      let lang :=
        if falsy lang then getLangFromFileName (basename filePath)
        else lang in
      (* the first loop: language roots, which it then deletes *)
      let roots :=
        (fix roots (ms : list (string * yaml)) : list I18nEntry :=
           match ms with
           | [] => []
           | (k, v) :: rest =>
               (if String.eqb prefix EmptyString
                   && isLanguageCode k && typeofObject v
                then flattenYaml v EmptyString filePath
                       (Some (toLowerCase k)) keyPositions
                else [])
               ++ roots rest
           end) members in
      (* the second loop: the keys that are left *)
      let others :=
        (fix others (ms : list (string * yaml)) : list I18nEntry :=
           match ms with
           | [] => []
           | (k, v) :: rest =>
               (if String.eqb prefix EmptyString
                   && isLanguageCode k && typeofObject v
                then []
                else
                  let newKey := prefixed prefix k in
                  let normalizedKey := normalizeDuplicateKeyParts newKey in
                  match v with
                  | YObject _ =>
                      flattenYaml v normalizedKey filePath lang keyPositions
                  | YNull => []
                  | _ =>
                      match scalarText v with
                      | Some text =>
                          flattenLeaf normalizedKey text filePath lang
                            keyPositions
                      | None => []
                      end
                  end)
               ++ others rest
           end) members in
      roots ++ others
  | _ => []
  end.

(** *** The Fallback Line Parser: [attemptPartialParsing] *)

Fixpoint partialLoop (i : nat) (lines : list string)
    (currentSections : list string) (currentIndent : nat)
    (filePath : string) (lang : option string) : list I18nEntry :=
  match lines with
  | [] => []
  | rawLine :: rest =>
      let line := trimEnd rawLine in
      if String.eqb (trim line) EmptyString || startsWith (trim line) "#"
      then partialLoop (S i) rest currentSections currentIndent filePath lang
      else
        match matchKeyLine line with
        | Some (indent, k, valueStr) =>
            let currentSections :=
              if indent <=? currentIndent then
                let diff := (currentIndent - indent) / 2 + 1 in
                sliceButLast diff currentSections
              else currentSections in
            let cleanKey := trim k in
            if String.eqb (trim valueStr) EmptyString
               || String.eqb (trim valueStr) "~"
            then partialLoop (S i) rest (currentSections ++ [cleanKey])
                   indent filePath lang
            else
              match processValue (trim valueStr) with
              | Some processedValue =>
                  let fullKey := join "." (currentSections ++ [cleanKey]) in
                  mkEntry fullKey processedValue filePath lang (Some (i + 1))
                  :: partialLoop (S i) rest currentSections indent
                       filePath lang
              | None =>
                  partialLoop (S i) rest currentSections indent filePath lang
              end
        | None =>
            partialLoop (S i) rest currentSections currentIndent filePath lang
        end
  end.

Definition attemptPartialParsing (content filePath : string)
    (lang : option string) : list I18nEntry :=
  partialLoop 0 (splitChar "010"%char content) [] 0 filePath lang.

(** *** One file: [parseYamlFile] *)

(** The outcome of [yaml.parse(content, { strict: false })]. *)
Inductive parseOutcome : Type :=
| Parsed (doc : yaml)
| ParseError.

Definition parseYamlFile (filePath : string) (lang : option string)
    (content : string) (outcome : parseOutcome) : list I18nEntry :=
  let lang :=
    if falsy lang then getLangFromFileName (basename filePath) else lang in
  match outcome with
  | Parsed parsed =>
      (* a falsy document is no object, and the flattener returns at once *)
      let keyPositions := extractKeyPositions content in
      flattenYaml parsed EmptyString filePath lang (Some keyPositions)
  | ParseError => attemptPartialParsing content filePath lang
  end.

(** *** The directory walk: [scanDirectory] *)

(** A readable directory tree, its entries in [fs.readdirSync] order; a file
    comes with its text and what [yaml.parse] makes of it. *)
Inductive fsNode : Type :=
| FsFile (name content : string) (outcome : parseOutcome)
| FsDir (name : string) (files : list fsNode).

(** Induction on a tree, with the hypothesis on every file of a
    directory. *)
Section FsInduction.
Variable P : fsNode -> Prop.
Hypothesis onFile : forall name content outcome,
    P (FsFile name content outcome).
Hypothesis onDir :
  forall name files, Forall P files -> P (FsDir name files).

Fixpoint fsNode_files_ind (node : fsNode) : P node :=
  match node with
  | FsFile name content outcome => onFile name content outcome
  | FsDir name files =>
      onDir name files
        ((fix all (fs : list fsNode) : Forall P fs :=
            match fs with
            | [] => Forall_nil _
            | f :: rest => Forall_cons f (fsNode_files_ind f) (all rest)
            end) files)
  end.
End FsInduction.

Definition pathJoin (dirPath name : string) : string :=
  (dirPath ++ "/" ++ name)%string.

Fixpoint scanNode (dirPath : string) (node : fsNode) : list I18nEntry :=
  match node with
  | FsDir name files =>
      List.flat_map (scanNode (pathJoin dirPath name)) files
  | FsFile name content outcome =>
      if endsWith name ".yml" || endsWith name ".yaml" then
        let lang :=
          match matchLangPrefix name with
          | Some c => Some c
          | None => getLangFromFileName name
          end in
        parseYamlFile (pathJoin dirPath name) lang content outcome
      else []
  end.

Definition scanDirectory (dirPath : string) (files : list fsNode)
  : list I18nEntry :=
  List.flat_map (scanNode dirPath) files.

(** *** The Index Post-Processor *)

(** [entry.lang || 'unknown']. *)
Definition langOrUnknown (entry : I18nEntry) : string :=
  match lang entry with
  | Some l => if String.eqb l EmptyString then "unknown" else l
  | None => "unknown"
  end.

Definition uniqueKey (entry : I18nEntry) : string :=
  (langOrUnknown entry ++ "_" ++ key entry)%string.

Definition removeDuplicateEntries (i18nEntries : list I18nEntry)
  : list I18nEntry :=
  mapValues
    (List.fold_left
       (fun uniqueMap entry => mapSet (uniqueKey entry) entry uniqueMap)
       i18nEntries []).

Definition normalizeEntry (entry : I18nEntry) : I18nEntry :=
  match matchLangKey (key entry) with
  | Some (c, normalizedKey) =>
      let langFromKey := toLowerCase c in
      if falsy (lang entry)
         || negb (match lang entry with
                  | Some l => String.eqb l langFromKey
                  | None => false
                  end)
      then mkEntry normalizedKey (value entry) (file entry)
             (Some langFromKey) (fileLine entry)
      else entry
  | None => entry
  end.

Definition normalizeI18nKeys (i18nEntries : list I18nEntry)
  : list I18nEntry :=
  List.map normalizeEntry i18nEntries.

Definition postProcess (i18nEntries : list I18nEntry) : list I18nEntry :=
  normalizeI18nKeys (removeDuplicateEntries i18nEntries).

(** *** A scan pass: [scanLocaleFiles] *)

(** [roots] are the configured locale directories that exist, by full path,
    in the order [scanWorkspaceFolders] reaches them. *)
Definition scanWorkspaceFolders (roots : list (string * list fsNode))
  : list I18nEntry :=
  List.flat_map (fun r => scanDirectory (fst r) (snd r)) roots.

Definition scanLocaleFiles (roots : list (string * list fsNode))
  : list I18nEntry :=
  postProcess (scanWorkspaceFolders roots).

(** *** The Key Resolver of the scanner *)

Definition keyDistance (k : string) (entry : I18nEntry) : Z :=
  Z.abs (Z.of_nat (String.length (key entry)) - Z.of_nat (String.length k)).

(** [key.split('#{')[0].replace(/\.$/, '')]. *)
Definition baseKeyOf (k : string) : string :=
  let before := beforeFirst "#{" k in
  if endsWith before "." then
    String.substring 0 (String.length before - 1) before
  else before.

Definition findByKey (i18nEntries : list I18nEntry) (k : string)
  : list I18nEntry :=
  let exactMatches :=
    List.filter (fun entry => String.eqb (key entry) k) i18nEntries in
  if 0 <? List.length exactMatches then exactMatches
  else if includes k "#{" then
    let baseKey := baseKeyOf k in
    if 0 <? String.length baseKey then
      let baseMatches :=
        List.filter (fun entry => startsWith (key entry) baseKey)
          i18nEntries in
      if 0 <? List.length baseMatches then
        (* the sorted array is as long as [baseMatches]: it has a first *)
        match sortBy (fun a b => (keyDistance k a - keyDistance k b)%Z)
                baseMatches with
        | first :: _ => [first]
        | [] => []
        end
      else []
    else []
  else [].

Definition findExactKey (i18nEntries : list I18nEntry) (k : string)
    (preferredLang : option string) : option I18nEntry :=
  let anyLang :=
    List.find (fun entry => String.eqb (key entry) k) i18nEntries in
  if falsy preferredLang then anyLang
  else
    match List.find
            (fun entry =>
               String.eqb (key entry) k
               && match lang entry, preferredLang with
                  | Some l, Some p => String.eqb l p
                  | _, _ => false
                  end) i18nEntries with
    | Some preferredEntry => Some preferredEntry
    | None => anyLang
    end.

(** *** The accessors of the index *)

(** [entry.lang === l] for a string [l]. *)
Definition hasLang (l : string) (entry : I18nEntry) : bool :=
  match lang entry with
  | Some x => String.eqb x l
  | None => false
  end.

Definition getEntriesByLang (i18nEntries : list I18nEntry) (l : string)
  : list I18nEntry :=
  List.filter (hasLang l) i18nEntries.

(** The [Record<string, number>] of [getLanguageStatistics], as the map of
    its own keys.  A language is absent or a two-letter code, never the name
    of a property an object inherits. *)
Definition getLanguageStatistics (i18nEntries : list I18nEntry) : Map nat :=
  List.fold_left
    (fun langStats entry =>
       let l := langOrUnknown entry in
       let count :=
         match mapGet l langStats with
         | Some n => n
         | None => 0
         end in
       mapSet l (count + 1) langStats)
    i18nEntries [].

End Scanner.

(** ** The definition provider: [I18nProvider] *)

Module Provider.
Import Js Scanner.

(** A [vscode.Location]: the file of the URI and a zero-based position. *)
Record Location : Type := mkLocation {
  uri : string;
  line : nat;
  character : nat
}.

Definition createLocation (entry : I18nEntry) : Location :=
  let lineNumber :=
    match fileLine entry with
    | Some n => n - 1
    | None => 0
    end in
  mkLocation (file entry) lineNumber 0.

(** [langSet.add(lang)] on a [Set] in insertion order. *)
Definition setAdd (x : string) (s : list string) : list string :=
  if List.existsb (String.eqb x) s then s else s ++ [x].

(** The default order of [Array.prototype.sort]: by code units. *)
Definition compareStrings (a b : string) : Z :=
  match String.compare a b with
  | Lt => (-1)%Z
  | Eq => 0%Z
  | Gt => 1%Z
  end.

Definition priorityLangs : list string := ["ko"; "en"; "ja"].

(** [i18nEntries] is what [this.localesScanner.getEntries()] returns. *)
Definition getLanguageCodes (i18nEntries : list I18nEntry) : list string :=
  let langSet :=
    List.fold_left
      (fun s entry =>
         if falsy (lang entry) then s
         else match lang entry with
              | Some l => setAdd l s
              | None => s
              end)
      i18nEntries [] in
  let result :=
    List.filter (fun l => List.existsb (String.eqb l) langSet)
      priorityLangs in
  let others :=
    List.filter (fun l => negb (List.existsb (String.eqb l) priorityLangs))
      langSet in
  result ++ sortBy compareStrings others.

(** [entry.key === k && entry.file && entry.fileLine !== undefined]. *)
Definition locatedAt (k : string) (entry : I18nEntry) : bool :=
  String.eqb (key entry) k
  && negb (String.eqb (file entry) EmptyString)
  && match fileLine entry with
     | Some _ => true
     | None => false
     end.

(** The loop that prepends each language code in turn and stops at the first
    one with a located entry. *)
Fixpoint firstPrefixedKey (languageCodes : list string)
    (entries : list I18nEntry) (k : string) : option string :=
  match languageCodes with
  | [] => None
  | langCode :: rest =>
      let altKey := (langCode ++ "." ++ k)%string in
      if 0 <? List.length (List.filter (locatedAt altKey) entries)
      then Some altKey
      else firstPrefixedKey rest entries k
  end.

(** The body of [findAlternativeKeyLocations] once [languageCodes] is
    known. *)
Definition alternativeKeyLocations (languageCodes : list string)
    (entries : list I18nEntry) (k : string) : list Location :=
  let alternativeKey :=
    match matchLangKey k with
    | Some (c, rest) =>
        if List.existsb (String.eqb (toLowerCase c)) languageCodes
        then Some rest
        else firstPrefixedKey languageCodes entries k
    | None => firstPrefixedKey languageCodes entries k
    end in
  match alternativeKey with
  | Some alt =>
      if String.eqb alt EmptyString then []
      else List.map createLocation (List.filter (locatedAt alt) entries)
  | None => []
  end.

Definition findAlternativeKeyLocations (i18nEntries : list I18nEntry)
    (entries : list I18nEntry) (k : string) : list Location :=
  alternativeKeyLocations (getLanguageCodes i18nEntries) entries k.

(** The strict lookup of [provideDefinition]. *)
Definition findExactMatchLocations (entries : list I18nEntry) (k : string)
  : list Location :=
  List.map createLocation (List.filter (locatedAt k) entries).

(** Steps 2 to 4 of [provideDefinition] for the key it extracted: [None] is
    [undefined]. *)
Definition definitionLocations (i18nEntries : list I18nEntry) (k : string)
  : option (list Location) :=
  let entries := i18nEntries in
  if List.length entries =? 0 then None
  else
    let locations := findExactMatchLocations entries k in
    if 0 <? List.length locations then Some locations
    else
      let altLocations := findAlternativeKeyLocations i18nEntries entries k in
      if 0 <? List.length altLocations then Some altLocations
      else None.

(** [entry.lang && languageCodes.includes(entry.lang)]. *)
Definition hasKnownLang (languageCodes : list string) (entry : I18nEntry)
  : bool :=
  match lang entry with
  | Some l =>
      negb (String.eqb l EmptyString)
      && List.existsb (String.eqb l) languageCodes
  | None => false
  end.

(** [entriesByLang] holds, for each language, its entries in the order of
    [entries]; the groups are read in the order of [languageCodes]. *)
Definition sortEntriesByLanguage (entries : list I18nEntry)
    (languageCodes : list string) : list I18nEntry :=
  let otherEntries :=
    List.filter (fun entry => negb (hasKnownLang languageCodes entry))
      entries in
  let sortedEntries :=
    List.flat_map
      (fun l =>
         List.filter
           (fun entry => hasKnownLang languageCodes entry && hasLang l entry)
           entries)
      languageCodes in
  sortedEntries ++ otherEntries.

(** [groupEntriesByLanguage]: the groups in the order their languages first
    occur, which is the order of [Object.keys] for language codes. *)
Definition groupEntriesByLanguage (entries : list I18nEntry)
  : Map (list I18nEntry) :=
  List.fold_left
    (fun langGroups entry =>
       match lang entry with
       | Some l =>
           if String.eqb l EmptyString then langGroups
           else
             let group :=
               match mapGet l langGroups with
               | Some g => g
               | None => []
               end in
             mapSet l (group ++ [entry]) langGroups
       | None => langGroups
       end)
    entries [].

(** The entries [provideHover] shows for a key, once the index is known not
    to be empty: none stands for the hover that reports no translation. *)
Definition hoverEntries (entries : list I18nEntry) (k : string)
  : list I18nEntry :=
  let matchedEntries :=
    List.filter (fun entry => String.eqb (key entry) k) entries in
  let isDynamicKey := includes k "#{" in
  if (List.length matchedEntries =? 0) && isDynamicKey then
    let baseKey := baseKeyOf k in
    if 0 <? String.length baseKey then
      let baseEntries :=
        sortBy
          (fun a b =>
             (Z.of_nat (String.length (key a))
              - Z.of_nat (String.length (key b)))%Z)
          (List.filter (fun entry => startsWith (key entry) baseKey)
             entries) in
      if 0 <? List.length baseEntries then List.firstn 3 baseEntries
      else matchedEntries
    else matchedEntries
  else matchedEntries.

(** The value [addEntriesToContent] prints. *)
Definition displayValue (v : string) : string :=
  if 150 <? String.length v then (String.substring 0 147 v ++ "...")%string
  else v.





End Provider.

(** * Properties *)

Import Js Scanner Provider.

(** ** Predicates on keys and files *)

(** The path segments of a key. *)
Definition segments (k : string) : list string := splitChar "."%char k.

Fixpoint noRepeatFrom (prev : string) (parts : list string) : bool :=
  match parts with
  | [] => true
  | p :: rest => negb (String.eqb p prev) && noRepeatFrom p rest
  end.

(** No two adjacent segments are the same. *)
Definition noAdjacentRepeat (parts : list string) : bool :=
  match parts with
  | [] => true
  | p :: rest => noRepeatFrom p rest
  end.

Definition noChar (c : ascii) (s : string) : bool :=
  allChars (fun x => negb (Ascii.eqb x c)) s.

(** A key the flattener accepts: normalized and within the length guard. *)
Definition flattenedKey (k : string) : Prop :=
  noAdjacentRepeat (segments k) = true /\ String.length k <= 200.

(** No file of the tree is rejected by the parser. *)
Fixpoint allParsed (node : fsNode) : bool :=
  match node with
  | FsFile _ _ (Parsed _) => true
  | FsFile _ _ ParseError => false
  | FsDir _ files => List.forallb allParsed files
  end.

(** ** Notions the properties are stated with *)

(** The map [removeDuplicateEntries] has built after the entries [l]. *)
Definition uniqueMapOf (l : list I18nEntry) : Map I18nEntry :=
  List.fold_left
    (fun uniqueMap entry => mapSet (uniqueKey entry) entry uniqueMap) l [].

(** The path [extractKeyPositions] records at a line, if any. *)
Definition recordedPath (rawLine : string) : option string :=
  snd (scanKeyLine [] rawLine).

Definition lineOf (entry : I18nEntry) : nat :=
  match fileLine entry with
  | Some n => n
  | None => 0
  end.

(** A line the fallback reads as a key with a value: neither blank nor a
    comment, matched by the key pattern, with a value that is neither empty
    nor the null marker. *)
Definition valueLine (rawLine k v : string) : Prop :=
  let line := trimEnd rawLine in
  (String.eqb (trim line) EmptyString || startsWith (trim line) "#") = false
  /\ (exists indent, matchKeyLine line = Some (indent, k, v))
  /\ trim v <> EmptyString /\ trim v <> "~".

(** A language is absent or a two-letter code. *)
Definition langShape (l : option string) : Prop :=
  match l with
  | None => True
  | Some c => isLanguageCode c = true
  end.

(** The record of [getLanguageStatistics] after the entries [l], from the
    record [m]. *)
Definition statisticsOf (l : list I18nEntry) (m : Map nat) : Map nat :=
  List.fold_left
    (fun langStats entry =>
       let l := langOrUnknown entry in
       let count :=
         match mapGet l langStats with
         | Some n => n
         | None => 0
         end in
       mapSet l (count + 1) langStats)
    l m.

(** [langStats[c] || 0], and the sum of all counts. *)
Definition countOf (c : string) (m : Map nat) : nat :=
  match mapGet c m with
  | Some n => n
  | None => 0
  end.

Definition total (m : Map nat) : nat :=
  List.fold_right (fun p acc => snd p + acc) 0 m.

(** The [Set] of languages [getLanguageCodes] collects. *)
Definition langSetOf (l : list I18nEntry) : list string :=
  List.fold_left
    (fun s entry =>
       if falsy (lang entry) then s
       else match lang entry with
            | Some l => setAdd l s
            | None => s
            end)
    l [].

Definition keyLength (entry : I18nEntry) : nat := String.length (key entry).

(** ** Sample files *)

Definition nl : string := String "010"%char EmptyString.

(** The lines of a file, each followed by a newline. *)
Definition fileText (lines : list string) : string :=
  String.concat EmptyString (List.map (fun l => (l ++ nl)%string) lines).

Definition localesDir : string := "/app/config/locales".

(** [a:], then [b: hello] indented by two spaces. *)
Definition nestedText : string := fileText ["a:"; "  b: hello"].

(** The document [{ko: {a: {b: "v"}}}]. *)
Definition koDocument : yaml :=
  YObject [("ko", YObject [("a", YObject [("b", YString "v")])])].

(** A valid file that spells one translation twice: under the language root
    [en], and under the dotted key [en.x]. *)
Definition twiceText : string := fileText ["en:"; "  x: v"; "en.x: w"].
Definition twiceDocument : yaml :=
  YObject [("en", YObject [("x", YString "v")]); ("en.x", YString "w")].
Definition twiceTree : list (string * list fsNode) :=
  [(localesDir, [FsFile "app.yml" twiceText (Parsed twiceDocument)])].

(** A file the parser rejects (its flow sequence is never closed), with a
    section [a] nested in a section [a]. *)
Definition repeatedText : string :=
  fileText ["a:"; "  a:"; "    b: v"; "c: [1, 2"].
Definition repeatedTree : list (string * list fsNode) :=
  [(localesDir, [FsFile "app.yml" repeatedText ParseError])].

(** A file the parser rejects, with a key of 201 characters. *)
Definition longKey : string := str (List.repeat "k"%char 201).
Definition longText : string :=
  fileText [(longKey ++ ": v")%string; "c: [1, 2"; "d: w"].
Definition longTree : list (string * list fsNode) :=
  [(localesDir, [FsFile "app.yml" longText ParseError])].

(** An entry that carries its language in its key as well. *)
Definition enEntry : I18nEntry :=
  mkEntry "en.user.name" "Name" "/app/config/locales/en.yml" (Some "en")
    (Some 2).


Definition greetings : list I18nEntry :=
  [ mkEntry "user.greeting.formal" "Good day" "/app/config/locales/en.yml"
      (Some "en") (Some 3);
    mkEntry "user.greeting.casual" "Hi" "/app/config/locales/en.yml"
      (Some "en") (Some 4) ].

(** An index where the entries that start with [user.greeting] differ in
    the length of their keys. *)
Definition greetingIndex : list I18nEntry :=
  [ mkEntry "user.greeting" "Greeting" "/app/config/locales/en.yml"
      (Some "en") (Some 2);
    mkEntry "user.greeting.formal" "Good day" "/app/config/locales/en.yml"
      (Some "en") (Some 3);
    mkEntry "user.greeting.casual" "Hi" "/app/config/locales/en.yml"
      (Some "en") (Some 4) ].

(** One key in two languages. *)
Definition welcomes : list I18nEntry :=
  [ mkEntry "welcome" "Welcome" "/app/config/locales/en.yml" (Some "en")
      (Some 2);
    mkEntry "welcome" "Annyeong" "/app/config/locales/ko.yml" (Some "ko")
      (Some 2) ].

(** ** Lists *)

Section ListFacts.
Context {A : Type}.

Lemma filter_split (p : A -> bool) :
  forall l b e a,
    List.filter p l = b ++ e :: a ->
    exists l1 l2,
      l = l1 ++ e :: l2 /\ List.filter p l1 = b /\ List.filter p l2 = a.
Proof.
  induction l as [| x l IH]; intros b e a H; simpl in H.
  - destruct b; discriminate.
  - destruct (p x) eqn:Hx.
    + destruct b as [| y b]; simpl in H; inversion H; subst.
      * exists [], l. simpl. auto.
      * destruct (IH _ _ _ H2) as (l1 & l2 & -> & Hb & Ha).
        exists (y :: l1), l2. simpl. rewrite Hx, Hb. auto.
    + destruct (IH _ _ _ H) as (l1 & l2 & -> & Hb & Ha).
      exists (x :: l1), l2. simpl. rewrite Hx. auto.
Qed.

Lemma filter_nil_none (p : A -> bool) :
  forall l, (forall x, In x l -> p x = false) -> List.filter p l = [].
Proof.
  induction l as [| x l IH]; intros H; simpl; [reflexivity |].
  rewrite (H x (or_introl eq_refl)). apply IH. intros; apply H; now right.
Qed.

Lemma length_removelast_pred :
  forall l : list A, List.length (removelast l) = pred (List.length l).
Proof.
  intros l. rewrite removelast_firstn_len, length_firstn. lia.
Qed.

Variable f : A -> Z.

Lemma sortBy_first_least :
  forall l,
    l <> [] ->
    exists before e after rest,
      l = before ++ e :: after
      /\ sortBy (fun a b => (f a - f b)%Z) l = e :: rest
      /\ (forall x, In x before -> (f e < f x)%Z)
      /\ (forall x, In x after -> (f e <= f x)%Z).
Proof.
  induction l as [| x l IH]; intros Hne; [congruence |].
  destruct l as [| y l'].
  - exists [], x, [], []. simpl. repeat split; intros ? [].
  - destruct IH as (before & e & after & rest & Hl & Hs & Hb & Ha);
      [discriminate |].
    change (sortBy (fun a b => (f a - f b)%Z) (x :: y :: l'))
      with (insertBy (fun a b => (f a - f b)%Z) x
              (sortBy (fun a b => (f a - f b)%Z) (y :: l'))).
    rewrite Hs. simpl. destruct (f x - f e <=? 0)%Z eqn:Hc.
    + apply Z.leb_le in Hc.
      exists [], x, (y :: l'), (e :: rest). repeat split.
      * intros ? [].
      * intros z Hz. rewrite Hl in Hz. apply in_app_or in Hz.
        destruct Hz as [Hz | [<- | Hz]].
        -- specialize (Hb _ Hz). lia.
        -- lia.
        -- specialize (Ha _ Hz). lia.
    + apply Z.leb_gt in Hc.
      exists (x :: before), e, after,
        (insertBy (fun a b => (f a - f b)%Z) x rest).
      repeat split.
      * rewrite Hl. reflexivity.
      * intros z [<- | Hz]; [lia | now apply Hb].
      * exact Ha.
Qed.

End ListFacts.

(** ** Maps in insertion order *)

Lemma in_mapSet {V} (k : string) (v : V) :
  forall m p, In p (mapSet k v m) -> p = (k, v) \/ In p m.
Proof.
  induction m as [| [k' v'] m IH]; intros p H; simpl in H.
  - destruct H as [<- | []]. now left.
  - destruct (String.eqb k' k).
    + destruct H as [<- | H]; [now left | right; now right].
    + destruct H as [<- | H]; [right; now left |].
      destruct (IH _ H); [now left | right; now right].
Qed.

Lemma mapSet_keys_in {V} (k : string) (v : V) :
  forall m x, In x (List.map fst (mapSet k v m)) ->
              x = k \/ In x (List.map fst m).
Proof.
  intros m x H. apply in_map_iff in H. destruct H as ([k' v'] & <- & H).
  apply in_mapSet in H. destruct H as [H | H].
  - inversion H. now left.
  - right. apply in_map_iff. exists (k', v'). auto.
Qed.

Lemma mapSet_NoDup {V} (k : string) (v : V) :
  forall m, NoDup (List.map fst m) -> NoDup (List.map fst (mapSet k v m)).
Proof.
  induction m as [| [k' v'] m IH]; intros H; simpl.
  - constructor; [intros [] | constructor].
  - inversion H; subst. destruct (String.eqb k' k) eqn:Hk.
    + apply String.eqb_eq in Hk. subst. simpl. now constructor.
    + simpl. constructor; [| now apply IH].
      intros Hin. apply mapSet_keys_in in Hin. destruct Hin as [-> | Hin].
      * rewrite String.eqb_refl in Hk. discriminate.
      * contradiction.
Qed.

(** ** Splitting and joining keys *)

Section SplitJoin.
Variable c : ascii.

Lemma splitChar_not_nil : forall s, splitChar c s <> [].
Proof.
  destruct s as [| a s]; simpl; [discriminate |].
  destruct (Ascii.eqb a c); [discriminate |].
  destruct (splitChar c s); discriminate.
Qed.

Lemma splitChar_single :
  forall p, noChar c p = true -> splitChar c p = [p].
Proof.
  induction p as [| a p IH]; intros H; simpl in *; [reflexivity |].
  apply andb_prop in H. destruct H as [Ha Hp].
  apply negb_true_iff in Ha. rewrite Ha, (IH Hp). reflexivity.
Qed.

Lemma splitChar_app_sep :
  forall p tail,
    noChar c p = true ->
    splitChar c (p ++ String c tail) = p :: splitChar c tail.
Proof.
  induction p as [| a p IH]; intros tail H; simpl in *.
  - now rewrite Ascii.eqb_refl.
  - apply andb_prop in H. destruct H as [Ha Hp].
    apply negb_true_iff in Ha. rewrite Ha, (IH _ Hp). reflexivity.
Qed.

Lemma splitChar_noChar :
  forall s, Forall (fun p => noChar c p = true) (splitChar c s).
Proof.
  induction s as [| a s IH]; simpl.
  - constructor; [reflexivity | constructor].
  - destruct (Ascii.eqb a c) eqn:Ha.
    + constructor; [reflexivity | exact IH].
    + destruct (splitChar c s) as [| seg segs].
      * constructor; [| constructor]. unfold noChar. simpl. now rewrite Ha.
      * inversion IH; subst. constructor; [| assumption].
        unfold noChar in *. simpl. rewrite Ha. assumption.
Qed.

Lemma splitChar_concat :
  forall parts,
    parts <> [] ->
    Forall (fun p => noChar c p = true) parts ->
    splitChar c (String.concat (String c EmptyString) parts) = parts.
Proof.
  induction parts as [| p parts IH]; intros Hne Hall; [congruence |].
  inversion Hall; subst. destruct parts as [| q parts].
  - simpl. now apply splitChar_single.
  - change (String.concat (String c EmptyString) (p :: q :: parts))
      with (p ++ String c (String.concat (String c EmptyString) (q :: parts)))%string.
    rewrite splitChar_app_sep by assumption.
    rewrite IH; [reflexivity | discriminate | assumption].
Qed.

End SplitJoin.

Lemma skipRepeated_Forall (P : string -> Prop) :
  forall parts prev, Forall P parts -> Forall P (skipRepeated prev parts).
Proof.
  induction parts as [| p parts IH]; intros prev H; simpl; [constructor |].
  inversion H; subst. destruct (String.eqb p prev); [now apply IH |].
  constructor; [assumption | now apply IH].
Qed.

Lemma skipRepeated_noRepeat :
  forall parts prev, noRepeatFrom prev (skipRepeated prev parts) = true.
Proof.
  induction parts as [| p parts IH]; intros prev; simpl; [reflexivity |].
  destruct (String.eqb p prev) eqn:Hp.
  - apply String.eqb_eq in Hp. subst. apply IH.
  - simpl. rewrite Hp. simpl. apply IH.
Qed.

Lemma normalizedParts_noAdjacentRepeat :
  forall parts, noAdjacentRepeat (normalizedParts parts) = true.
Proof.
  destruct parts as [| p parts]; simpl; [reflexivity |].
  apply skipRepeated_noRepeat.
Qed.

Lemma segments_normalizeDuplicateKeyParts :
  forall k,
    segments (normalizeDuplicateKeyParts k) = normalizedParts (segments k).
Proof.
  intros k. unfold segments, normalizeDuplicateKeyParts, join.
  apply (splitChar_concat "."%char).
  - pose proof (splitChar_not_nil "."%char k).
    destruct (splitChar "." k); [congruence | discriminate].
  - pose proof (splitChar_noChar "."%char k) as H.
    destruct (splitChar "." k) as [| p parts]; [constructor |].
    inversion H; subst. simpl. constructor; [assumption |].
    now apply skipRepeated_Forall.
Qed.

Lemma normalizeDuplicateKeyParts_noAdjacentRepeat :
  forall k,
    noAdjacentRepeat (segments (normalizeDuplicateKeyParts k)) = true.
Proof.
  intros k. rewrite segments_normalizeDuplicateKeyParts.
  apply normalizedParts_noAdjacentRepeat.
Qed.

(** ** The Position Extractor *)

Lemma takeWhile_dropWhile (p : ascii -> bool) :
  forall s, takeWhile p (dropWhile p s) = EmptyString.
Proof.
  induction s as [| c s IH]; simpl; [reflexivity |].
  destruct (p c) eqn:Hc; [exact IH |]. simpl. now rewrite Hc.
Qed.

Lemma trim_no_leading_space :
  forall s, takeWhile isSpace (trim s) = EmptyString.
Proof. intros s. apply takeWhile_dropWhile. Qed.

Lemma matchKeyLine_trimmed :
  forall s n k v, matchKeyLine (trim s) = Some (n, k, v) -> n = 0.
Proof.
  intros s n k v. unfold matchKeyLine. rewrite trim_no_leading_space.
  simpl. destruct (matchKeyValue (trim s)) as [[k' v'] |]; congruence.
Qed.

Lemma popKeyStack_no_indent :
  forall fuel keyStack,
    List.length keyStack = fuel -> popKeyStack fuel 0 keyStack = [].
Proof.
  induction fuel as [| fuel IH]; intros keyStack Hlen.
  - destruct keyStack; [reflexivity | discriminate].
  - simpl. rewrite Hlen. simpl. apply IH.
    rewrite length_removelast_pred, Hlen. reflexivity.
Qed.

Lemma scanKeyLine_recorded :
  forall keyStack rawLine keyStack' path,
    scanKeyLine keyStack rawLine = (keyStack', Some path) ->
    exists k v,
      matchKeyLine (trim rawLine) = Some (0, k, v)
      /\ keyStack' = [trim k] /\ path = trim k.
Proof.
  intros keyStack rawLine keyStack' path. unfold scanKeyLine.
  destruct (String.eqb (trim rawLine) EmptyString
            || startsWith (trim rawLine) "#"); [discriminate |].
  destruct (matchKeyLine (trim rawLine)) as [[[n k] v] |] eqn:Hm;
    [| discriminate].
  pose proof (matchKeyLine_trimmed _ _ _ _ Hm) as ->.
  rewrite popKeyStack_no_indent by reflexivity. simpl.
  destruct (negb (String.eqb (trim v) EmptyString)
            && negb (String.eqb (trim v) "~")); [| discriminate].
  intros H. inversion H; subst. exists k, v. auto.
Qed.

Lemma extractLoop_recorded :
  forall lines i keyStack keyPositions path n,
    In (path, n) (extractLoop i lines keyStack keyPositions) ->
    In (path, n) keyPositions
    \/ exists rawLine k v,
         i < n /\ nth_error lines (n - 1 - i) = Some rawLine
         /\ matchKeyLine (trim rawLine) = Some (0, k, v) /\ path = trim k.
Proof.
  induction lines as [| rawLine lines IH]; intros i keyStack keyPositions path n H;
    simpl in H; [now left |].
  destruct (scanKeyLine keyStack rawLine) as [keyStack' recorded] eqn:Hs.
  apply IH in H. destruct H as [H | (r & k & v & Hi & Hn & Hm & Hp)].
  - destruct recorded as [fullKey |]; [| now left].
    apply in_mapSet in H. destruct H as [H | H]; [| now left].
    inversion H; subst. right.
    destruct (scanKeyLine_recorded _ _ _ _ Hs) as (k & v & Hm & _ & Hp).
    exists rawLine, k, v. repeat split; auto; try lia.
    replace (i + 1 - 1 - i) with 0 by lia. reflexivity.
  - right. exists r, k, v. repeat split; auto; try lia.
    replace (n - 1 - i) with (S (n - 1 - S i)) by lia. exact Hn.
Qed.

(** C9.  Whenever the Position Extractor records a path, its stack holds one
    element.  A line is trimmed before it is matched, so the indentation the
    pattern captures has length 0 and the loop pops the whole stack; the stack
    after a recording line is the key of that line alone, and so is the
    recorded path.  Hence every pair of the finished table is the key written
    on the line of that number, never a path qualified by parent keys. *)
Theorem extractor_records_single_key :
  (forall rawLine n k v,
      matchKeyLine (trim rawLine) = Some (n, k, v) ->
      n = 0 /\ forall keyStack,
                 popKeyStack (List.length keyStack) n keyStack = [])
  /\ (forall keyStack rawLine keyStack' path,
        scanKeyLine keyStack rawLine = (keyStack', Some path) ->
        exists k v,
          matchKeyLine (trim rawLine) = Some (0, k, v)
          /\ keyStack' = [trim k] /\ List.length keyStack' = 1
          /\ path = trim k)
  /\ (forall content path n,
        In (path, n) (extractKeyPositions content) ->
        exists rawLine k v,
          1 <= n
          /\ nth_error (splitChar "010"%char content) (n - 1) = Some rawLine
          /\ matchKeyLine (trim rawLine) = Some (0, k, v) /\ path = trim k).
Proof.
  split; [| split].
  - intros rawLine n k v Hm.
    pose proof (matchKeyLine_trimmed _ _ _ _ Hm) as ->.
    split; [reflexivity |]. intros keyStack.
    now apply popKeyStack_no_indent.
  - intros keyStack rawLine keyStack' path Hs.
    destruct (scanKeyLine_recorded _ _ _ _ Hs) as (k & v & Hm & -> & Hp).
    exists k, v. auto.
  - intros content path n H. unfold extractKeyPositions in H.
    apply extractLoop_recorded in H.
    destruct H as [[] | (r & k & v & Hi & Hn & Hm & Hp)].
    exists r, k, v. rewrite Nat.sub_0_r in Hn. repeat split; auto; lia.
Qed.

Lemma extractor_records_single_key_witness :
  exists rawLine k v,
    1 <= 2
    /\ nth_error (splitChar "010"%char nestedText) (2 - 1) = Some rawLine
    /\ matchKeyLine (trim rawLine) = Some (0, k, v) /\ "b" = trim k.
Proof.
  apply (proj2 (proj2 extractor_records_single_key) nestedText "b" 2).
  vm_compute. left. reflexivity.
Defined.

(** C5.  For the text of two lines, [a:] and then [b: hello] indented by two
    spaces, the table of the Position Extractor looked up for the key [a.b]
    gives line 2. *)
Theorem position_of_nested_key :
  findLineNumber (Some (extractKeyPositions nestedText)) "a.b" = Some 2.
Proof. vm_compute. reflexivity. Qed.

(** ** The Tree Flattener *)

(** Every key the flattener pushes went through
    [normalizeDuplicateKeyParts] and passed the length guard. *)
Lemma flattenLeaf_key :
  forall s text filePath lang keyPositions e,
    In e (flattenLeaf (normalizeDuplicateKeyParts s) text filePath lang
            keyPositions) ->
    flattenedKey (key e).
Proof.
  intros s text filePath lang keyPositions e. unfold flattenLeaf.
  destruct (200 <? String.length (normalizeDuplicateKeyParts s)) eqn:Hlen;
    [intros [] |].
  intros [<- | []]. simpl. split.
  - apply normalizeDuplicateKeyParts_noAdjacentRepeat.
  - apply Nat.ltb_ge in Hlen. exact Hlen.
Qed.

Lemma flattenYaml_keys :
  forall obj prefix filePath lang keyPositions e,
    In e (flattenYaml obj prefix filePath lang keyPositions) ->
    flattenedKey (key e).
Proof.
  induction obj as [| s | text | b | members IH] using yaml_members_ind;
    intros prefix filePath lang keyPositions e H; try destruct H.
  simpl in H. apply in_app_or in H. destruct H as [H | H].
  - induction IH as [| [k v] ms Hv _ IHms]; [destruct H |].
    apply in_app_or in H. destruct H as [H | H]; [| now apply IHms].
    destruct (String.eqb prefix EmptyString && isLanguageCode k
              && typeofObject v); [| destruct H].
    eapply Hv. exact H.
  - induction IH as [| [k v] ms Hv _ IHms]; [destruct H |].
    apply in_app_or in H. destruct H as [H | H]; [| now apply IHms].
    destruct (String.eqb prefix EmptyString && isLanguageCode k
              && typeofObject v); [destruct H |].
    destruct v as [| s | text | b | ms']; simpl in H;
      try (now destruct H); try (eapply flattenLeaf_key; exact H).
    + destruct b; eapply flattenLeaf_key; exact H.
    + eapply Hv. exact H.
Qed.

(** C6.  Flattening [{ko: {a: {b: "v"}}}] pushes exactly one entry, of key
    [a.b], value [v] and language [ko], whatever the file, the language hint
    and the position table; nothing is pushed under a key that starts with
    [ko]. *)
Theorem flatten_language_root :
  forall (filePath : string) (lang : option string)
         (keyPositions : option (Map nat)),
    flattenYaml koDocument EmptyString filePath lang keyPositions
    = [mkEntry "a.b" "v" filePath (Some "ko")
         (findLineNumber keyPositions "a.b")].
Proof. intros. reflexivity. Qed.

(** ** The Index Post-Processor *)

(** The map of [removeDuplicateEntries] after the entries [l]: its keys are
    distinct, each is the unique key of its entry, and each entry is one of
    [l] or was in the map before. *)
Lemma uniqueMap_invariant :
  forall l m,
    NoDup (List.map fst m) ->
    (forall p, In p m -> fst p = uniqueKey (snd p)) ->
    let m' :=
      List.fold_left
        (fun uniqueMap entry => mapSet (uniqueKey entry) entry uniqueMap)
        l m in
    NoDup (List.map fst m')
    /\ (forall p, In p m' -> fst p = uniqueKey (snd p))
    /\ (forall p, In p m' -> In p m \/ In (snd p) l).
Proof.
  induction l as [| e l IH]; intros m Hnd Hk; simpl.
  - auto.
  - destruct (IH (mapSet (uniqueKey e) e m)) as (H1 & H2 & H3).
    + now apply mapSet_NoDup.
    + intros p Hp. apply in_mapSet in Hp. destruct Hp as [-> | Hp]; auto.
    + repeat split; auto. intros p Hp. destruct (H3 p Hp) as [H | H].
      * apply in_mapSet in H. destruct H as [-> | H]; auto.
      * auto.
Qed.

Lemma removeDuplicateEntries_unique :
  forall l, NoDup (List.map uniqueKey (removeDuplicateEntries l)).
Proof.
  intros l. unfold removeDuplicateEntries, mapValues.
  destruct (uniqueMap_invariant l []) as (H1 & H2 & _);
    [constructor | intros ? [] |].
  rewrite List.map_map.
  erewrite List.map_ext_in; [exact H1 |].
  intros p Hp. symmetry. now apply H2.
Qed.

Lemma removeDuplicateEntries_subset :
  forall l e, In e (removeDuplicateEntries l) -> In e l.
Proof.
  intros l e H. unfold removeDuplicateEntries, mapValues in H.
  apply in_map_iff in H. destruct H as (p & <- & Hp).
  destruct (uniqueMap_invariant l []) as (_ & _ & H3);
    [constructor | intros ? [] |].
  destruct (H3 p Hp) as [[] | H]. exact H.
Qed.

(** Two places of the deduplicated list that agree on key and on language,
    an absent language counting as unknown, are the same place. *)
Lemma removeDuplicateEntries_pairs :
  forall l i j e1 e2,
    nth_error (removeDuplicateEntries l) i = Some e1 ->
    nth_error (removeDuplicateEntries l) j = Some e2 ->
    key e1 = key e2 -> langOrUnknown e1 = langOrUnknown e2 ->
    i = j.
Proof.
  intros l i j e1 e2 H1 H2 Hk Hl.
  pose proof (removeDuplicateEntries_unique l) as Hnd.
  rewrite NoDup_nth_error in Hnd. apply Hnd.
  - rewrite length_map. apply nth_error_Some. congruence.
  - rewrite !nth_error_map, H1, H2. simpl. unfold uniqueKey.
    now rewrite Hk, Hl.
Qed.

(** C1, at a failing input.  The file spells the pair of language [en] and
    key [x] twice, once under the language root and once as the dotted key
    [en.x] without a language; the two entries are distinct when duplicates are
    removed and equal in key and language after normalization, which runs
    last: the scan returns both. *)
Theorem scan_keeps_pair_twice :
  scanLocaleFiles twiceTree
  = [ mkEntry "x" "v" "/app/config/locales/app.yml" (Some "en") (Some 2);
      mkEntry "x" "w" "/app/config/locales/app.yml" (Some "en") (Some 3) ].
Proof. vm_compute. reflexivity. Qed.

(** C2, as the code has it.  An entry whose key is a two-letter code, a dot
    and a rest, and whose language is that code in lower case, is left as it
    is by normalization: the code stays in the key. *)
Theorem normalize_keeps_own_code :
  forall (entry : I18nEntry) (c rest : string),
    matchLangKey (key entry) = Some (c, rest) ->
    lang entry = Some (toLowerCase c) ->
    normalizeEntry entry = entry
    /\ normalizeI18nKeys [entry] = [entry].
Proof.
  intros entry c rest Hm Hl.
  assert (He : normalizeEntry entry = entry).
  { unfold normalizeEntry. rewrite Hm, Hl.
    assert (Hc : exists a b, c = String a (String b EmptyString)).
    { unfold matchLangKey in Hm.
      destruct (key entry) as [| a [| b [| d r]]]; try discriminate.
      destruct (isLetter a && isLetter b && Ascii.eqb d "."
                && negb (String.eqb r EmptyString)
                && allChars (fun x => negb (isLineTerminator x)) r);
        [| discriminate].
      inversion Hm. eauto. }
    destruct Hc as (a & b & ->). simpl.
    rewrite !Ascii.eqb_refl. reflexivity. }
  split; [exact He |]. simpl. now rewrite He.
Qed.

Lemma normalize_keeps_own_code_witness :
  normalizeEntry enEntry = enEntry /\ normalizeI18nKeys [enEntry] = [enEntry].
Proof.
  apply (normalize_keeps_own_code enEntry "en" "user.name"); reflexivity.
Defined.

(** C2 does not hold as stated: the entry of key [en.user.name] and language
    [en] matches the pattern with its own language, and normalization returns
    it with the key [en.user.name], not [user.name]. *)
Lemma normalize_does_not_strip_own_code :
  matchLangKey (key enEntry) = Some ("en", "user.name")
  /\ lang enEntry = Some (toLowerCase "en")
  /\ normalizeI18nKeys [enEntry] = [enEntry]
  /\ key (normalizeEntry enEntry) <> "user.name".
Proof. repeat split. vm_compute. discriminate. Qed.

(** Normalization keeps what the flattener established. *)
Lemma letter_not_dot : forall a, isLetter a = true -> Ascii.eqb a "." = false.
Proof.
  intros a H. destruct (Ascii.eqb_spec a "."%char) as [-> | _];
    [discriminate | reflexivity].
Qed.

Lemma noAdjacentRepeat_tail :
  forall p parts,
    noAdjacentRepeat (p :: parts) = true -> noAdjacentRepeat parts = true.
Proof.
  intros p [| q parts] H; simpl in *; [reflexivity |].
  apply andb_prop in H. apply H.
Qed.

Lemma normalizeEntry_key :
  forall entry,
    flattenedKey (key entry) -> flattenedKey (key (normalizeEntry entry)).
Proof.
  intros entry [Hrep Hlen]. unfold normalizeEntry.
  destruct (matchLangKey (key entry)) as [[c rest] |] eqn:Hm;
    [| now split].
  destruct (falsy (lang entry) || _); [| now split].
  simpl. unfold matchLangKey in Hm.
  destruct (key entry) as [| a [| b [| d r]]] eqn:Hkey; try discriminate.
  destruct (isLetter a && isLetter b && Ascii.eqb d "."
            && negb (String.eqb r EmptyString)
            && allChars (fun x => negb (isLineTerminator x)) r) eqn:Hc;
    [| discriminate].
  inversion Hm; subst.
  apply andb_prop in Hc. destruct Hc as [Hc _].
  apply andb_prop in Hc. destruct Hc as [Hc _].
  apply andb_prop in Hc. destruct Hc as [Hc Hd].
  apply andb_prop in Hc. destruct Hc as [Ha Hb].
  apply Ascii.eqb_eq in Hd. subst d.
  split.
  - unfold segments in *. simpl in Hrep.
    rewrite (letter_not_dot _ Ha), (letter_not_dot _ Hb) in Hrep.
    simpl in Hrep. eapply noAdjacentRepeat_tail. exact Hrep.
  - simpl in Hlen. lia.
Qed.

(** ** A scan pass *)

(** When every file parses, every key of the returned index is free of
    adjacent repeated segments and within the length guard. *)
Lemma scanNode_keys :
  forall node dirPath e,
    allParsed node = true -> In e (scanNode dirPath node) ->
    flattenedKey (key e).
Proof.
  induction node as [name content outcome | name files IH]
    using fsNode_files_ind; intros dirPath e Hp H; simpl in *.
  - destruct (endsWith name ".yml" || endsWith name ".yaml"); [| destruct H].
    destruct outcome as [doc |]; [| discriminate].
    simpl in H. eapply flattenYaml_keys. exact H.
  - apply in_flat_map in H. destruct H as (f & Hf & He).
    rewrite Forall_forall in IH. rewrite forallb_forall in Hp.
    eapply IH; eauto.
Qed.

Theorem parsed_scan_keys :
  forall roots,
    List.forallb (fun r => List.forallb allParsed (snd r)) roots = true ->
    Forall (fun e => flattenedKey (key e)) (scanLocaleFiles roots).
Proof.
  intros roots Hp. apply Forall_forall. intros e He.
  unfold scanLocaleFiles, postProcess, normalizeI18nKeys in He.
  apply in_map_iff in He. destruct He as (e0 & <- & He).
  apply normalizeEntry_key. apply removeDuplicateEntries_subset in He.
  unfold scanWorkspaceFolders in He. apply in_flat_map in He.
  destruct He as ([dirPath files] & Hr & He).
  rewrite forallb_forall in Hp. specialize (Hp _ Hr). simpl in *.
  unfold scanDirectory in He. apply in_flat_map in He.
  destruct He as (f & Hf & He). rewrite forallb_forall in Hp.
  eapply scanNode_keys; eauto.
Qed.

(** ** The Fallback Line Parser *)

(** C3, at a failing input.  The parser rejects the file, the fallback walks
    its lines and pushes the key [a.a.b] as it stands: no path of the fallback
    calls [normalizeDuplicateKeyParts], and the scan returns the key with its
    repeated segment. *)
Theorem fallback_keeps_repeated_segment :
  normalizeDuplicateKeyParts "a.a.b" = "a.b"
  /\ scanLocaleFiles repeatedTree
     = [ mkEntry "a.a.b" "v" "/app/config/locales/app.yml" None (Some 3);
         mkEntry "c" "[1, 2" "/app/config/locales/app.yml" None (Some 4) ].
Proof. split; vm_compute; reflexivity. Qed.

(** C4, at a failing input.  The parser rejects the file, and the fallback
    pushes the entry of a key of 201 characters along with the others: the
    length guard of [flattenYaml] has no counterpart in
    [attemptPartialParsing]. *)
Theorem fallback_keeps_long_key :
  String.length longKey = 201
  /\ scanLocaleFiles longTree
     = [ mkEntry longKey "v" "/app/config/locales/app.yml" None (Some 1);
         mkEntry "c" "[1, 2" "/app/config/locales/app.yml" None (Some 2);
         mkEntry "d" "w" "/app/config/locales/app.yml" None (Some 3) ].
Proof. split; vm_compute; reflexivity. Qed.

(** ** The Key Resolver *)

(* The three cases of [findByKey], with the base key and the distance as
   [baseKeyOf] and [keyDistance] compute them. *)
Lemma findByKey_cases :
  forall (entries : list I18nEntry) (k : string),
    let exact := List.filter (fun e => String.eqb (key e) k) entries in
    let base := baseKeyOf k in
    (exact <> [] -> findByKey entries k = exact)
    /\ (exact = [] -> includes k "#{" = true -> base <> EmptyString ->
        (exists x, In x entries /\ startsWith (key x) base = true) ->
        exists before e after,
          entries = before ++ e :: after
          /\ findByKey entries k = [e]
          /\ startsWith (key e) base = true
          /\ (forall x, In x before -> startsWith (key x) base = true ->
                        (keyDistance k e < keyDistance k x)%Z)
          /\ (forall x, In x after -> startsWith (key x) base = true ->
                        (keyDistance k e <= keyDistance k x)%Z))
    /\ (exact = [] ->
        includes k "#{" = false \/ base = EmptyString
        \/ (forall x, In x entries -> startsWith (key x) base = false) ->
        findByKey entries k = []).
Proof.
  intros entries k exact base. unfold findByKey. fold exact. fold base.
  repeat split.
  - intros Hne. destruct exact; [congruence | reflexivity].
  - intros -> Hinc Hbase (x & Hx & Hsx). simpl. rewrite Hinc.
    destruct base as [| c base'] eqn:Eb; [congruence |].
    rewrite <- Eb in *. replace (0 <? String.length base) with true
      by (rewrite Eb; reflexivity).
    set (p := fun entry => startsWith (key entry) base).
    assert (Hm : List.filter p entries <> []).
    { intros Hnil. assert (Hin : In x (List.filter p entries))
        by (apply filter_In; auto).
      rewrite Hnil in Hin. destruct Hin. }
    destruct (sortBy_first_least (keyDistance k) _ Hm)
      as (b & e & a & rest & Hl & Hs & Hb & Ha).
    replace (0 <? List.length (List.filter p entries)) with true
      by (destruct (List.filter p entries); [congruence | reflexivity]).
    rewrite Hs.
    destruct (filter_split p _ _ _ _ Hl) as (l1 & l2 & He & H1 & H2).
    exists l1, e, l2. repeat split; auto.
    + assert (Hin : In e (List.filter p entries))
        by (rewrite Hl; apply in_or_app; right; now left).
      apply filter_In in Hin. apply Hin.
    + intros y Hy Hsy. apply Hb. rewrite <- H1. apply filter_In. auto.
    + intros y Hy Hsy. apply Ha. rewrite <- H2. apply filter_In. auto.
  - intros -> H. simpl. destruct (includes k "#{"); [| reflexivity].
    destruct (0 <? String.length base) eqn:Hlen; [| reflexivity].
    destruct H as [H | [H | H]].
    + discriminate.
    + rewrite H in Hlen. discriminate.
    + rewrite (filter_nil_none _ _ H). reflexivity.
Qed.

(** C10.  A key that contains the marker, whose base key is empty and that
    no entry has as its key resolves to the empty list: the search by prefix
    is not run. *)
Theorem findByKey_empty_base :
  forall (entries : list I18nEntry) (k : string),
    includes k "#{" = true ->
    baseKeyOf k = EmptyString ->
    List.filter (fun e => String.eqb (key e) k) entries = [] ->
    findByKey entries k = [].
Proof.
  intros entries k Hinc Hbase Hexact. unfold findByKey.
  rewrite Hexact, Hinc, Hbase. reflexivity.
Qed.

Lemma findByKey_empty_base_witness :
  findByKey greetings ".#{scope}.title" = [].
Proof. apply findByKey_empty_base; reflexivity. Defined.

(** ** Alternative resolution *)




(** * Further properties of the scanner and the provider *)

(** ** Sorting *)

Section SortFacts.
Context {A : Type} (cmp : A -> A -> Z).

Lemma insertBy_perm : forall x l, Permutation (insertBy cmp x l) (x :: l).
Proof.
  induction l as [| y l IH]; simpl; [reflexivity |].
  destruct (cmp x y <=? 0)%Z; [reflexivity |].
  rewrite IH. apply perm_swap.
Qed.

Lemma sortBy_perm : forall l, Permutation (sortBy cmp l) l.
Proof.
  induction l as [| x l IH]; simpl; [reflexivity |].
  rewrite insertBy_perm. now constructor.
Qed.

Variable R : A -> A -> Prop.
Hypothesis cmp_le : forall x y, (cmp x y <= 0)%Z -> R x y.
Hypothesis cmp_gt : forall x y, (0 < cmp x y)%Z -> R y x.

Lemma insertBy_sorted :
  forall x l, Sorted R l -> Sorted R (insertBy cmp x l).
Proof.
  induction l as [| y l IH]; intros Hs; simpl.
  - repeat constructor.
  - destruct (cmp x y <=? 0)%Z eqn:Hc.
    + constructor; [assumption |]. constructor. apply cmp_le.
      now apply Z.leb_le.
    + apply Z.leb_gt in Hc. inversion Hs as [| ? ? Hl Hh]; subst.
      constructor; [now apply IH |].
      destruct l as [| z l]; simpl.
      * constructor. now apply cmp_gt.
      * destruct (cmp x z <=? 0)%Z.
        -- constructor. now apply cmp_gt.
        -- constructor. now inversion Hh.
Qed.

Lemma sortBy_sorted : forall l, Sorted R (sortBy cmp l).
Proof.
  induction l as [| x l IH]; simpl; [constructor |].
  now apply insertBy_sorted.
Qed.

End SortFacts.

(** ** Maps, continued *)

Lemma in_mapSet_iff {V} (k : string) (v : V) :
  forall m p,
    NoDup (List.map fst m) ->
    (In p (mapSet k v m) <-> p = (k, v) \/ (fst p <> k /\ In p m)).
Proof.
  induction m as [| [k' v'] m IH]; intros p Hnd; simpl.
  - split; [intros [<- | []]; now left | intros [-> | [_ []]]; now left].
  - inversion Hnd as [| ? ? Hni Hnd']; subst.
    destruct (String.eqb_spec k' k) as [-> | Hne]; simpl.
    + split.
      * intros [<- | H]; [now left |]. right. split; [| now right].
        intros <-. apply Hni. apply in_map_iff. exists p. auto.
      * intros [-> | [Hp [<- | H]]]; [now left | | now right].
        simpl in Hp. congruence.
    + rewrite (IH p Hnd'). split.
      * intros [<- | [-> | [Hp H]]]; auto.
      * intros [-> | [Hp [<- | H]]]; auto.
Qed.

Lemma mapSet_fresh {V} (k : string) (v : V) :
  forall m, ~ In k (List.map fst m) -> mapSet k v m = m ++ [(k, v)].
Proof.
  induction m as [| [k' v'] m IH]; intros Hni; simpl; [reflexivity |].
  destruct (String.eqb_spec k' k) as [-> | Hne].
  - exfalso. apply Hni. now left.
  - rewrite IH; [reflexivity |]. intros H. apply Hni. now right.
Qed.

(** ** Deduplication, continued *)

Lemma uniqueMapOf_snoc :
  forall l e,
    uniqueMapOf (l ++ [e]) = mapSet (uniqueKey e) e (uniqueMapOf l).
Proof. intros l e. unfold uniqueMapOf. now rewrite fold_left_app. Qed.




Lemma uniqueMapOf_distinct :
  forall l,
    NoDup (List.map uniqueKey l) ->
    uniqueMapOf l = List.map (fun e => (uniqueKey e, e)) l.
Proof.
  induction l as [| x l IH] using rev_ind; intros Hnd; [reflexivity |].
  rewrite uniqueMapOf_snoc, List.map_app in *. simpl in *.
  apply NoDup_remove in Hnd. rewrite app_nil_r in Hnd.
  destruct Hnd as [Hnd Hni]. rewrite (IH Hnd).
  apply mapSet_fresh. rewrite List.map_map. exact Hni.
Qed.

(** X3.  Removing duplicates twice is removing them once. *)
Theorem removeDuplicateEntries_idempotent :
  forall l,
    removeDuplicateEntries (removeDuplicateEntries l)
    = removeDuplicateEntries l.
Proof.
  intros l. set (d := removeDuplicateEntries l).
  unfold removeDuplicateEntries at 1. fold (uniqueMapOf d).
  rewrite uniqueMapOf_distinct by apply removeDuplicateEntries_unique.
  unfold mapValues. rewrite List.map_map. simpl. apply List.map_id.
Qed.

(** X1.  After [removeDuplicateEntries] no two entries of the list agree on
    both the language, an absent or empty one counting as unknown, and the
    key. *)
Theorem removeDuplicateEntries_distinct_pairs :
  forall l,
    NoDup (List.map (fun e => (langOrUnknown e, key e))
             (removeDuplicateEntries l)).
Proof.
  intros l. pose proof (removeDuplicateEntries_unique l) as H.
  apply (NoDup_map_inv (fun p => (fst p ++ "_" ++ snd p)%string)).
  now rewrite List.map_map.
Qed.

(** ** Strings *)

Lemma length_append :
  forall s t, String.length (s ++ t) = String.length s + String.length t.
Proof. induction s as [| c s IH]; intros t; simpl; auto. Qed.

Lemma append_empty_r : forall s, (s ++ EmptyString)%string = s.
Proof. induction s as [| c s IH]; simpl; congruence. Qed.

Lemma append_assoc_string :
  forall s t u, ((s ++ t) ++ u)%string = (s ++ (t ++ u))%string.
Proof. induction s as [| c s IH]; intros; simpl; congruence. Qed.

Lemma chars_append :
  forall s t, chars (s ++ t) = chars s ++ chars t.
Proof. induction s as [| c s IH]; intros t; simpl; [| rewrite IH]; auto. Qed.

Lemma str_app :
  forall l m, str (l ++ m) = (str l ++ str m)%string.
Proof. induction l as [| c l IH]; intros m; simpl; [| rewrite IH]; auto. Qed.

Lemma reverse_involutive : forall s, reverse (reverse s) = s.
Proof.
  intros s. unfold reverse, chars, str.
  rewrite list_ascii_of_string_of_list_ascii, rev_involutive.
  apply string_of_list_ascii_of_string.
Qed.

Lemma reverse_append :
  forall s t, reverse (s ++ t) = (reverse t ++ reverse s)%string.
Proof.
  intros s t. unfold reverse. now rewrite chars_append, rev_app_distr, str_app.
Qed.

Lemma reverse_cons :
  forall c s, reverse (String c s) = (reverse s ++ String c EmptyString)%string.
Proof. intros c s. apply (reverse_append (String c EmptyString) s). Qed.

Lemma length_reverse : forall s, String.length (reverse s) = String.length s.
Proof.
  induction s as [| c s IH]; [reflexivity |].
  rewrite reverse_cons, length_append, IH. simpl. lia.
Qed.

Lemma prefix_append : forall p s, String.prefix p (p ++ s) = true.
Proof.
  induction p as [| c p IH]; intros s; simpl.
  - destruct s; reflexivity.
  - destruct (ascii_dec c c); [apply IH | congruence].
Qed.

Lemma prefix_split :
  forall p s, String.prefix p s = true -> exists t, s = (p ++ t)%string.
Proof.
  induction p as [| c p IH]; intros s H.
  - exists s. reflexivity.
  - destruct s as [| d s]; simpl in H; [discriminate |].
    destruct (ascii_dec c d) as [-> | _]; [| discriminate].
    destruct (IH _ H) as (t & ->). exists t. reflexivity.
Qed.

Lemma startsWith_iff :
  forall s p, startsWith s p = true <-> exists t, s = (p ++ t)%string.
Proof.
  intros s p. unfold startsWith. split.
  - apply prefix_split.
  - intros (t & ->). apply prefix_append.
Qed.

Lemma endsWith_iff :
  forall s p, endsWith s p = true <-> exists t, s = (t ++ p)%string.
Proof.
  intros s p. unfold endsWith. split.
  - intros H. apply prefix_split in H. destruct H as (t & H).
    exists (reverse t). apply (f_equal reverse) in H.
    rewrite reverse_involutive, reverse_append, reverse_involutive in H.
    exact H.
  - intros (t & ->). rewrite reverse_append. apply prefix_append.
Qed.

(** ** Joining what was split *)

Lemma concat_cons :
  forall sep p q parts,
    String.concat sep (p :: q :: parts)
    = (p ++ sep ++ String.concat sep (q :: parts))%string.
Proof. reflexivity. Qed.

Lemma join_splitChar :
  forall c s, String.concat (String c EmptyString) (splitChar c s) = s.
Proof.
  intros c. induction s as [| a s IH]; [reflexivity |].
  pose proof (splitChar_not_nil c s) as Hn.
  cbn [splitChar]. destruct (splitChar c s) as [| q parts]; [congruence |].
  destruct (Ascii.eqb_spec a c) as [-> | Hne].
  - rewrite concat_cons. cbn [append]. now rewrite IH.
  - destruct parts as [| r parts].
    + cbn [String.concat] in *. now rewrite IH.
    + rewrite concat_cons in *. cbn [append] in *. now rewrite IH.
Qed.

Lemma skipRepeated_fixed :
  forall parts prev,
    noRepeatFrom prev parts = true -> skipRepeated prev parts = parts.
Proof.
  induction parts as [| p parts IH]; intros prev H; simpl in *;
    [reflexivity |].
  apply andb_prop in H. destruct H as [Hp Hr].
  apply negb_true_iff in Hp. rewrite Hp. now rewrite IH.
Qed.

Lemma concat_skipRepeated_length :
  forall sep parts p,
    String.length (String.concat sep (p :: skipRepeated p parts))
    <= String.length (String.concat sep (p :: parts)).
Proof.
  induction parts as [| q parts IH]; intros p; [reflexivity |].
  simpl skipRepeated. destruct (String.eqb_spec q p) as [-> | Hne].
  - specialize (IH p). rewrite concat_cons, !length_append.
    assert (String.length (String.concat sep (p :: skipRepeated p parts))
            <= String.length (String.concat sep (p :: parts))) by exact IH.
    lia.
  - specialize (IH q). rewrite !concat_cons, !length_append. lia.
Qed.

(** A key without adjacent repeated segments is a fixed point. *)
Lemma normalizedKey_fixed :
  forall k,
    noAdjacentRepeat (segments k) = true ->
    normalizeDuplicateKeyParts k = k.
Proof.
  intros k H. unfold normalizeDuplicateKeyParts, join, segments in *.
  rewrite <- (join_splitChar "."%char k) at 2.
  destruct (splitChar "." k) as [| p parts]; [reflexivity |].
  simpl in *. now rewrite skipRepeated_fixed.
Qed.

(** X5.  [normalizeDuplicateKeyParts] returns a key without adjacent repeated
    segments that is never longer than the key it was given; it leaves a key
    without adjacent repeated segments as it is, so normalizing twice is
    normalizing once. *)
Theorem normalizeDuplicateKeyParts_result :
  forall k,
    noAdjacentRepeat (segments (normalizeDuplicateKeyParts k)) = true
    /\ String.length (normalizeDuplicateKeyParts k) <= String.length k
    /\ normalizeDuplicateKeyParts (normalizeDuplicateKeyParts k)
       = normalizeDuplicateKeyParts k
    /\ (noAdjacentRepeat (segments k) = true ->
        normalizeDuplicateKeyParts k = k).
Proof.
  intros k. split; [apply normalizeDuplicateKeyParts_noAdjacentRepeat |].
  split; [| split].
  - unfold normalizeDuplicateKeyParts, join.
    rewrite <- (join_splitChar "."%char k) at 2.
    pose proof (splitChar_not_nil "."%char k) as Hn.
    destruct (splitChar "." k) as [| p parts]; [congruence |].
    apply concat_skipRepeated_length.
  - apply normalizedKey_fixed.
    apply normalizeDuplicateKeyParts_noAdjacentRepeat.
  - apply normalizedKey_fixed.
Qed.

(** ** The Value Parser *)

Lemma dropWhile_head (p : ascii -> bool) :
  forall c s, p c = false -> dropWhile p (String c s) = String c s.
Proof. intros c s H. simpl. now rewrite H. Qed.

Lemma trim_bounded :
  forall a s b,
    isSpace a = false -> isSpace b = false ->
    trim (String a (s ++ String b EmptyString))
    = String a (s ++ String b EmptyString).
Proof.
  intros a s b Ha Hb. unfold trim, trimStart, trimEnd.
  change (String a (s ++ String b EmptyString))
    with (String a s ++ String b EmptyString)%string.
  rewrite reverse_append. change (reverse (String b EmptyString))
    with (String b EmptyString). cbn [append].
  rewrite dropWhile_head by exact Hb.
  change (String b (reverse (String a s)))
    with (String b EmptyString ++ reverse (String a s))%string.
  rewrite reverse_append, reverse_involutive. cbn [append reverse].
  change (reverse (String b EmptyString)) with (String b EmptyString).
  now apply dropWhile_head.
Qed.

Lemma substring_prefix :
  forall s t, String.substring 0 (String.length s) (s ++ t) = s.
Proof.
  induction s as [| c s IH]; intros t; simpl.
  - destruct t; reflexivity.
  - now rewrite IH.
Qed.

Lemma processValue_quoted :
  forall q s,
    q = "034"%char \/ q = "039"%char ->
    processValue (String q (s ++ String q EmptyString)) = Some s.
Proof.
  intros q s Hq. unfold processValue.
  assert (Hsp : isSpace q = false) by (destruct Hq; subst; reflexivity).
  rewrite trim_bounded by assumption.
  set (v := String q (s ++ String q EmptyString)).
  assert (Hs : startsWith v (String q EmptyString) = true).
  { apply startsWith_iff. exists (s ++ String q EmptyString)%string.
    reflexivity. }
  assert (He : endsWith v (String q EmptyString) = true).
  { apply endsWith_iff. exists (String q s). reflexivity. }
  assert (Hsub : substring 1 (String.length v - 1) v = s).
  { assert (Hlen : String.length v = String.length s + 2).
    { unfold v. simpl. rewrite length_append. simpl. lia. }
    unfold substring. rewrite Hlen.
    replace (String.length s + 2 - 1) with (String.length s + 1) by lia.
    rewrite (Nat.min_l 1) by lia.
    rewrite (Nat.min_l (String.length s + 1)) by lia.
    rewrite Nat.min_l by lia. rewrite Nat.max_r by lia.
    replace (String.length s + 1 - 1) with (String.length s) by lia.
    unfold v. cbn [String.substring]. apply substring_prefix. }
  unfold dquote, squote. destruct Hq as [-> | ->].
  - rewrite Hs, He. cbn [andb orb]. now rewrite Hsub.
  - rewrite Hs, He. cbn [andb]. rewrite orb_true_r. now rewrite Hsub.
Qed.

Lemma processValue_none :
  forall v, processValue v = None <-> trim v = EmptyString.
Proof.
  intros v. unfold processValue. split.
  - destruct (_ || _); [discriminate |].
    destruct (String.eqb_spec (trim v) EmptyString); [auto | discriminate].
  - intros ->. reflexivity.
Qed.

(** X6.  [processValue] strips one layer of matching double or single quotes
    and returns the text between them as it stands, and it returns no value
    exactly for a text that is empty once trimmed. *)
Theorem processValue_reads :
  forall s,
    processValue (dquote ++ s ++ dquote) = Some s
    /\ processValue (squote ++ s ++ squote) = Some s
    /\ (processValue s = None <-> trim s = EmptyString).
Proof.
  intros s. split; [| split].
  - apply (processValue_quoted "034"%char). now left.
  - apply (processValue_quoted "039"%char). now right.
  - apply processValue_none.
Qed.

(** ** Line-number lookup *)

Lemma mapGet_in {V} :
  forall (m : Map V) k v, mapGet k m = Some v -> In (k, v) m.
Proof.
  induction m as [| [k' v'] m IH]; intros k v H; simpl in H; [discriminate |].
  destruct (String.eqb_spec k' k) as [-> | _].
  - inversion H. now left.
  - right. now apply IH.
Qed.

Lemma findSuffix_in :
  forall suffix positions n,
    findSuffix suffix positions = Some n ->
    exists path, In (path, n) positions /\ endsWith path suffix = true.
Proof.
  intros suffix positions n. unfold findSuffix.
  destruct (List.find _ positions) as [[path m] |] eqn:Hf; [| discriminate].
  intros H. inversion H; subst. apply find_some in Hf.
  exists path. exact Hf.
Qed.

(** X7.  A line number [findLineNumber] returns is in the table: it is
    recorded for the key itself, or else for a path that ends with the last
    two segments of the key or with its last segment. *)
Theorem findLineNumber_sound :
  forall positions k n,
    findLineNumber (Some positions) k = Some n ->
    exists path,
      In (path, n) positions
      /\ (path = k
          \/ endsWith path
               (List.last (splitChar "."%char k) EmptyString) = true
          \/ endsWith path
               (join "." (sliceLast 2 (splitChar "."%char k))) = true).
Proof.
  intros positions k n. unfold findLineNumber.
  destruct (String.eqb k EmptyString); [discriminate |].
  destruct (mapGet k positions) as [m |] eqn:Hg.
  - intros H. inversion H; subst. exists k. split; [| now left].
    now apply mapGet_in.
  - destruct (includes k "."); [| discriminate].
    destruct (findSuffix (join "." (sliceLast 2 (splitChar "." k))) positions)
      as [m |] eqn:H2.
    + intros H. inversion H; subst.
      destruct (findSuffix_in _ _ _ H2) as (path & Hin & He).
      exists path. auto.
    + intros H. destruct (findSuffix_in _ _ _ H) as (path & Hin & He).
      exists path. auto.
Qed.

Lemma findLineNumber_sound_witness :
  exists path,
    In (path, 2) (extractKeyPositions nestedText)
    /\ (path = "a.b"
        \/ endsWith path (List.last (splitChar "."%char "a.b") EmptyString)
           = true
        \/ endsWith path (join "." (sliceLast 2 (splitChar "."%char "a.b")))
           = true).
Proof.
  apply (findLineNumber_sound (extractKeyPositions nestedText) "a.b" 2).
  vm_compute. reflexivity.
Defined.

Lemma findLineNumber_hit :
  forall positions k n,
    k <> EmptyString -> mapGet k positions = Some n ->
    findLineNumber (Some positions) k = Some n.
Proof.
  intros positions k n Hk Hg. unfold findLineNumber.
  apply String.eqb_neq in Hk. now rewrite Hk, Hg.
Qed.

(** ** The table of the Position Extractor *)

Lemma scanKeyLine_stack_free :
  forall keyStack rawLine,
    snd (scanKeyLine keyStack rawLine) = recordedPath rawLine.
Proof.
  intros keyStack rawLine. unfold recordedPath, scanKeyLine.
  destruct (String.eqb (trim rawLine) EmptyString
            || startsWith (trim rawLine) "#"); [reflexivity |].
  destruct (matchKeyLine (trim rawLine)) as [[[n k] v] |] eqn:Hm;
    [| reflexivity].
  pose proof (matchKeyLine_trimmed _ _ _ _ Hm) as ->.
  rewrite popKeyStack_no_indent by reflexivity. simpl.
  destruct (negb (String.eqb (trim v) EmptyString)
            && negb (String.eqb (trim v) "~")); reflexivity.
Qed.

Lemma extractLoop_NoDup :
  forall lines i keyStack keyPositions,
    NoDup (List.map fst keyPositions) ->
    NoDup (List.map fst (extractLoop i lines keyStack keyPositions)).
Proof.
  induction lines as [| rawLine lines IH]; intros i ks kp H; simpl; [exact H |].
  destruct (scanKeyLine ks rawLine) as [ks' [fullKey |]]; apply IH;
    [now apply mapSet_NoDup | exact H].
Qed.

Lemma extractLoop_table :
  forall lines i keyStack keyPositions path n,
    NoDup (List.map fst keyPositions) ->
    (In (path, n) (extractLoop i lines keyStack keyPositions) <->
     (exists j rawLine,
         nth_error lines j = Some rawLine /\ n = i + j + 1
         /\ recordedPath rawLine = Some path
         /\ forall j' later,
              j < j' -> nth_error lines j' = Some later ->
              recordedPath later <> Some path)
     \/ (In (path, n) keyPositions
         /\ forall j rawLine,
              nth_error lines j = Some rawLine ->
              recordedPath rawLine <> Some path)).
Proof.
  induction lines as [| rawLine lines IH]; intros i ks kp path n Hnd.
  - simpl. split.
    + intros H. right. split; [exact H |]. intros [| j] ? H'; discriminate.
    + intros [(j & r & H & _) | [H _]]; [destruct j; discriminate | exact H].
  - simpl. pose proof (scanKeyLine_stack_free ks rawLine) as Hrec.
    destruct (scanKeyLine ks rawLine) as [ks' recorded]. simpl in Hrec.
    subst recorded. rewrite IH; clear IH.
    2:{ destruct (recordedPath rawLine);
          [now apply mapSet_NoDup | exact Hnd]. }
    split.
    + intros [(j & r & Hj & Hn & Hr & Hlater) | [Hin Hnone]].
      * left. exists (S j), r. repeat split; auto; try lia.
        intros [| j'] later Hlt Hl; [lia |]. simpl in Hl.
        apply (Hlater j'); [lia | exact Hl].
      * destruct (recordedPath rawLine) as [fullKey |] eqn:Hr.
        -- apply in_mapSet_iff in Hin; [| exact Hnd].
           destruct Hin as [Hin | [Hne Hin]].
           ++ inversion Hin; subst. left. exists 0, rawLine.
              repeat split; auto; try lia.
              intros [| j'] later Hlt Hl; [lia |]. simpl in Hl.
              now apply (Hnone j').
           ++ right. split; [exact Hin |]. intros [| j] r Hj.
              ** inversion Hj; subst. rewrite Hr. simpl in Hne. congruence.
              ** now apply (Hnone j).
        -- right. split; [exact Hin |]. intros [| j] r Hj.
           ++ inversion Hj; subst. rewrite Hr. discriminate.
           ++ now apply (Hnone j).
    + intros [(j & r & Hj & Hn & Hr & Hlater) | [Hin Hnone]].
      * destruct j as [| j].
        -- inversion Hj; subst. right. split.
           ++ rewrite Hr. apply in_mapSet_iff; [exact Hnd |]. left.
              f_equal. lia.
           ++ intros j r' Hj'. apply (Hlater (S j)); [lia | exact Hj'].
        -- left. exists j, r. repeat split; auto; try lia.
           intros j' later Hlt Hl. apply (Hlater (S j')); [lia | exact Hl].
      * right. split.
        -- pose proof (Hnone 0 rawLine eq_refl) as H0.
           destruct (recordedPath rawLine) as [fullKey |]; [| exact Hin].
           apply in_mapSet_iff; [exact Hnd |]. right. split; [| exact Hin].
           simpl. congruence.
        -- intros j r Hj. apply (Hnone (S j)). exact Hj.
Qed.

Lemma extractKeyPositions_last :
  forall content path n,
    In (path, n) (extractKeyPositions content) <->
    exists rawLine,
      1 <= n
      /\ nth_error (splitChar "010"%char content) (n - 1) = Some rawLine
      /\ recordedPath rawLine = Some path
      /\ forall m later,
           n < m ->
           nth_error (splitChar "010"%char content) (m - 1) = Some later ->
           recordedPath later <> Some path.
Proof.
  intros content path n. unfold extractKeyPositions.
  rewrite extractLoop_table by constructor. split.
  - intros [(j & r & Hj & -> & Hr & Hlater) | [[] _]].
    exists r. replace (0 + j + 1 - 1) with j by lia.
    repeat split; auto; try lia.
    intros m later Hm Hl. apply (Hlater (m - 1)); [lia | exact Hl].
  - intros (r & Hn & Hj & Hr & Hlater). left. exists (n - 1), r.
    repeat split; auto; try lia.
    intros j' later Hlt Hl. apply (Hlater (S j')); [lia |].
    simpl. now rewrite Nat.sub_0_r.
Qed.

Lemma extractKeyPositions_NoDup :
  forall content, NoDup (List.map fst (extractKeyPositions content)).
Proof. intros content. apply extractLoop_NoDup. constructor. Qed.

(** X8.  The table of [extractKeyPositions] has one pair for each path, and
    the line it holds for a path is the last line that records it: the pair
    of a path and a line is in the table exactly when that line records the
    path and no later line does.  What a line records does not depend on the
    stack the loop has reached. *)
Theorem extractKeyPositions_table :
  forall content,
    NoDup (List.map fst (extractKeyPositions content))
    /\ (forall keyStack rawLine,
          snd (scanKeyLine keyStack rawLine) = recordedPath rawLine)
    /\ forall path n,
         In (path, n) (extractKeyPositions content) <->
         exists rawLine,
           1 <= n
           /\ nth_error (splitChar "010"%char content) (n - 1) = Some rawLine
           /\ recordedPath rawLine = Some path
           /\ forall m later,
                n < m ->
                nth_error (splitChar "010"%char content) (m - 1)
                = Some later ->
                recordedPath later <> Some path.
Proof.
  intros content. split; [apply extractKeyPositions_NoDup |].
  split; [apply scanKeyLine_stack_free |].
  intros path n. apply extractKeyPositions_last.
Qed.

(** ** The Fallback Line Parser, line by line *)

Lemma processValue_some :
  forall v, trim v <> EmptyString -> exists p, processValue v = Some p.
Proof.
  intros v H. destruct (processValue v) as [p |] eqn:E; [eauto |].
  apply processValue_none in E. contradiction.
Qed.

Lemma trim_idempotent : forall s, trim (trim s) = trim s.
Proof.
  intros s. unfold trim at 1. unfold trimEnd.
  destruct (trim s) as [| a t] eqn:E; [reflexivity |].
  assert (Ha : isSpace a = false).
  { pose proof (trim_no_leading_space s) as H. rewrite E in H. simpl in H.
    destruct (isSpace a); [discriminate | reflexivity]. }
  (* the end of [trim s] is the end of [trimEnd s] *)
  assert (Hend : dropWhile isSpace (reverse (String a t))
                 = reverse (String a t)).
  { unfold trim, trimStart in E.
    assert (Hsuf : exists pre, trimEnd s = (pre ++ String a t)%string).
    { clear Ha. revert E. generalize (trimEnd s) as u.
      induction u as [| c u IH]; simpl; [discriminate |].
      destruct (isSpace c).
      - intros H. destruct (IH H) as (pre & ->).
        exists (String c pre). reflexivity.
      - intros <-. exists EmptyString. reflexivity. }
    destruct Hsuf as (pre & Hpre).
    assert (Hrev : reverse (trimEnd s)
                   = dropWhile isSpace (reverse s)).
    { unfold trimEnd. apply reverse_involutive. }
    rewrite Hpre, reverse_append in Hrev.
    destruct (reverse (String a t)) as [| z r] eqn:Er.
    - reflexivity.
    - simpl in Hrev. destruct (isSpace z) eqn:Hz; [| now rewrite dropWhile_head].
      exfalso.
      assert (Hd : forall u, takeWhile isSpace (dropWhile isSpace u)
                             = EmptyString) by apply takeWhile_dropWhile.
      specialize (Hd (reverse s)). rewrite <- Hrev in Hd. simpl in Hd.
      rewrite Hz in Hd. discriminate. }
  rewrite Hend, reverse_involutive. unfold trimStart.
  now apply dropWhile_head.
Qed.

Lemma partialLoop_entries :
  forall lines i currentSections currentIndent filePath l e,
    In e (partialLoop i lines currentSections currentIndent filePath l) ->
    file e = filePath /\ lang e = l
    /\ exists j rawLine k v sections,
         nth_error lines j = Some rawLine
         /\ fileLine e = Some (i + j + 1)
         /\ valueLine rawLine k v
         /\ processValue (trim v) = Some (value e)
         /\ key e = join "." (sections ++ [trim k]).
Proof.
  induction lines as [| rawLine lines IH];
    intros i cs ci filePath l e H; simpl in H; [destruct H |].
  assert (Hshift :
    forall cs' ci',
      In e (partialLoop (S i) lines cs' ci' filePath l) ->
      file e = filePath /\ lang e = l
      /\ exists j rawLine0 k v sections,
           nth_error (rawLine :: lines) j = Some rawLine0
           /\ fileLine e = Some (i + j + 1)
           /\ valueLine rawLine0 k v
           /\ processValue (trim v) = Some (value e)
           /\ key e = join "." (sections ++ [trim k])).
  { intros cs' ci' H'. apply IH in H'.
    destruct H' as (Hf & Hl & j & r & k & v & s & Hj & Hn & Hrest).
    repeat split; auto. exists (S j), r, k, v, s. repeat split; try apply Hrest.
    - exact Hj.
    - rewrite Hn. f_equal. lia. }
  destruct (String.eqb (trim (trimEnd rawLine)) EmptyString
            || startsWith (trim (trimEnd rawLine)) "#") eqn:Hblank;
    [now apply Hshift in H |].
  destruct (matchKeyLine (trimEnd rawLine)) as [[[indent k] v] |] eqn:Hm;
    [| now apply Hshift in H].
  destruct (String.eqb (trim v) EmptyString || String.eqb (trim v) "~")
    eqn:Hsec; [now apply Hshift in H |].
  apply orb_false_elim in Hsec. destruct Hsec as [Hv1 Hv2].
  apply String.eqb_neq in Hv1, Hv2.
  destruct (processValue (trim v)) as [p |] eqn:Hp;
    [| now apply Hshift in H].
  destruct H as [<- | H]; [| now apply Hshift in H].
  simpl. split; [reflexivity | split; [reflexivity |]].
  exists 0, rawLine, k, v.
  eexists. split; [reflexivity |]. split; [f_equal; lia |].
  split; [| split; [exact Hp | reflexivity]].
  unfold valueLine. split; [exact Hblank |].
  split; [now exists indent | now split].
Qed.

Lemma partialLoop_sorted :
  forall lines i currentSections currentIndent filePath l,
    StronglySorted (fun a b => lineOf a < lineOf b)
      (partialLoop i lines currentSections currentIndent filePath l).
Proof.
  induction lines as [| rawLine lines IH]; intros i cs ci filePath l; simpl;
    [constructor |].
  destruct (String.eqb (trim (trimEnd rawLine)) EmptyString
            || startsWith (trim (trimEnd rawLine)) "#"); [apply IH |].
  destruct (matchKeyLine (trimEnd rawLine)) as [[[indent k] v] |];
    [| apply IH].
  destruct (String.eqb (trim v) EmptyString || String.eqb (trim v) "~");
    [apply IH |].
  destruct (processValue (trim v)) as [p |]; [| apply IH].
  constructor; [apply IH |]. apply Forall_forall. intros e He.
  apply partialLoop_entries in He.
  destruct He as (_ & _ & j & r & k' & v' & s & _ & Hn & _).
  unfold lineOf. rewrite Hn. simpl. lia.
Qed.

Lemma partialLoop_recovers :
  forall lines i currentSections currentIndent filePath l j rawLine k v,
    nth_error lines j = Some rawLine ->
    valueLine rawLine k v ->
    exists e,
      In e (partialLoop i lines currentSections currentIndent filePath l)
      /\ fileLine e = Some (i + j + 1)
      /\ processValue (trim v) = Some (value e).
Proof.
  induction lines as [| first lines IH];
    intros i cs ci filePath l j rawLine k v Hj Hv; [destruct j; discriminate |].
  destruct j as [| j].
  - inversion Hj; subst first. simpl.
    destruct Hv as (Hblank & (indent & Hm) & Hv1 & Hv2).
    rewrite Hblank, Hm.
    apply String.eqb_neq in Hv1, Hv2. rewrite Hv1, Hv2. simpl.
    apply String.eqb_neq in Hv1.
    assert (Hp : exists p, processValue (trim v) = Some p).
    { apply processValue_some. now rewrite trim_idempotent. }
    destruct Hp as (p & Hp). rewrite Hp.
    eexists. split; [now left |]. simpl. split; [f_equal; lia | reflexivity].
  - simpl in Hj.
    assert (Hnext :
      forall cs' ci',
        exists e,
          In e (partialLoop (S i) lines cs' ci' filePath l)
          /\ fileLine e = Some (i + S j + 1)
          /\ processValue (trim v) = Some (value e)).
    { intros cs' ci'.
      destruct (IH (S i) cs' ci' filePath l j rawLine k v Hj Hv)
        as (e & He & Hn & Hp).
      exists e. repeat split; auto. rewrite Hn. f_equal. lia. }
    simpl.
    destruct (String.eqb (trim (trimEnd first)) EmptyString
              || startsWith (trim (trimEnd first)) "#"); [apply Hnext |].
    destruct (matchKeyLine (trimEnd first)) as [[[indent' k'] v'] |];
      [| apply Hnext].
    destruct (String.eqb (trim v') EmptyString || String.eqb (trim v') "~");
      [apply Hnext |].
    destruct (processValue (trim v')) as [p |]; [| apply Hnext].
    match goal with
    | |- exists e, In e (_ :: partialLoop _ _ ?cs' ?ci' _ _) /\ _ =>
        destruct (Hnext cs' ci') as (e & He & Hrest)
    end.
    exists e. split; [now right | exact Hrest].
Qed.

(** X10.  Every entry the fallback parser pushes carries the file and the
    language it was given and the number of a line of the text; that line is
    a key line with a value, the value of the entry is what [processValue]
    reads after the colon, and the key of the entry ends with the key of the
    line.  The entries come in the order of their lines, one per line at
    most. *)
Theorem attemptPartialParsing_entries :
  forall content filePath l,
    Forall
      (fun e =>
         file e = filePath /\ lang e = l
         /\ exists n rawLine k v sections,
              fileLine e = Some n /\ 1 <= n
              /\ nth_error (splitChar "010"%char content) (n - 1)
                 = Some rawLine
              /\ valueLine rawLine k v
              /\ processValue (trim v) = Some (value e)
              /\ key e = join "." (sections ++ [trim k]))
      (attemptPartialParsing content filePath l)
    /\ StronglySorted (fun a b => lineOf a < lineOf b)
         (attemptPartialParsing content filePath l).
Proof.
  intros content filePath l. split; [| apply partialLoop_sorted].
  apply Forall_forall. intros e He. unfold attemptPartialParsing in He.
  apply partialLoop_entries in He.
  destruct He as (Hf & Hl & j & r & k & v & s & Hj & Hn & Hv & Hp & Hk).
  split; [exact Hf |]. split; [exact Hl |].
  exists (j + 1), r, k, v, s. replace (j + 1 - 1) with j by lia.
  split; [rewrite Hn; f_equal; lia |]. split; [lia |].
  split; [exact Hj |]. split; [exact Hv |]. split; [exact Hp | exact Hk].
Qed.

(** X11.  The fallback parser recovers every key line that has a value,
    whatever the other lines of the text hold: it pushes an entry with the
    number of that line and the value [processValue] reads on it. *)
Theorem attemptPartialParsing_recovers :
  forall content filePath l n rawLine k v,
    1 <= n ->
    nth_error (splitChar "010"%char content) (n - 1) = Some rawLine ->
    valueLine rawLine k v ->
    exists e,
      In e (attemptPartialParsing content filePath l)
      /\ fileLine e = Some n
      /\ processValue (trim v) = Some (value e).
Proof.
  intros content filePath l n rawLine k v Hn Hj Hv.
  destruct (partialLoop_recovers (splitChar "010"%char content) 0 [] 0
              filePath l (n - 1) rawLine k v Hj Hv) as (e & He & Hl & Hp).
  exists e. split; [exact He |]. split; [| exact Hp].
  rewrite Hl. f_equal. lia.
Qed.

Lemma attemptPartialParsing_recovers_witness :
  exists e,
    In e (attemptPartialParsing repeatedText "/app/config/locales/app.yml"
            None)
    /\ fileLine e = Some 4
    /\ processValue (trim "[1, 2") = Some (value e).
Proof.
  apply (attemptPartialParsing_recovers repeatedText
           "/app/config/locales/app.yml" None 4 "c: [1, 2" "c" "[1, 2").
  - lia.
  - reflexivity.
  - unfold valueLine. split; [reflexivity |].
    split; [exists 0; reflexivity |].
    split; vm_compute; discriminate.
Defined.

(** ** Languages *)

Lemma lowerChar_letter :
  forall a, isLetter a = true -> isLetter (lowerChar a) = true.
Proof.
  intros [[] [] [] [] [] [] [] []]; vm_compute; intros H;
    first [reflexivity | discriminate].
Qed.

Lemma lowerChar_idempotent :
  forall a, lowerChar (lowerChar a) = lowerChar a.
Proof. intros [[] [] [] [] [] [] [] []]; reflexivity. Qed.

Lemma toLowerCase_code :
  forall c, isLanguageCode c = true -> isLanguageCode (toLowerCase c) = true.
Proof.
  intros [| a [| b [| d r]]] H; simpl in *; try discriminate.
  apply andb_prop in H. destruct H as [Ha Hb].
  now rewrite !lowerChar_letter.
Qed.

Lemma matchLangPrefix_code :
  forall fileName c,
    matchLangPrefix fileName = Some c ->
    isLanguageCode c = true
    /\ exists sep rest,
         fileName = (c ++ String sep rest)%string
         /\ (sep = "."%char \/ sep = "_"%char).
Proof.
  intros [| a [| b [| d r]]] c H; simpl in H; try discriminate.
  destruct (isLetter a && isLetter b) eqn:Hl; simpl in H; [| discriminate].
  destruct (Ascii.eqb d "." || Ascii.eqb d "_") eqn:Hd; [| discriminate].
  inversion H; subst. split; [exact Hl |].
  exists d, r. split; [reflexivity |].
  apply orb_prop in Hd. destruct Hd as [Hd | Hd]; apply Ascii.eqb_eq in Hd;
    auto.
Qed.

Lemma getLangFromFileName_shape :
  forall fileName, langShape (getLangFromFileName fileName).
Proof.
  intros fileName. unfold getLangFromFileName.
  destruct (matchLangPrefix fileName) as [c |] eqn:H; simpl; [| exact I].
  apply toLowerCase_code. now apply matchLangPrefix_code in H.
Qed.

Lemma inferred_shape :
  forall l filePath,
    langShape l ->
    langShape (if falsy l then getLangFromFileName (basename filePath)
               else l).
Proof.
  intros l filePath H. destruct (falsy l); [| exact H].
  apply getLangFromFileName_shape.
Qed.

(** ** What the Tree Flattener pushes, in full *)

Lemma flattenYaml_pushes :
  forall obj prefix filePath l keyPositions e,
    langShape l ->
    In e (flattenYaml obj prefix filePath l keyPositions) ->
    langShape (lang e)
    /\ exists s text l',
         In e (flattenLeaf (normalizeDuplicateKeyParts s) text filePath l'
                 keyPositions).
Proof.
  induction obj as [| s | text | b | members IH] using yaml_members_ind;
    intros prefix filePath l keyPositions e Hl H; try destruct H.
  simpl in H. apply in_app_or in H.
  pose proof (inferred_shape l filePath Hl) as Hl'.
  set (l' := if falsy l then getLangFromFileName (basename filePath) else l)
    in *.
  destruct H as [H | H].
  - induction IH as [| [k v] ms Hv _ IHms]; [destruct H |].
    apply in_app_or in H. destruct H as [H | H]; [| now apply IHms].
    destruct (String.eqb prefix EmptyString && isLanguageCode k
              && typeofObject v) eqn:Hroot; [| destruct H].
    eapply Hv; [| exact H]. simpl. apply toLowerCase_code.
    apply andb_prop in Hroot. destruct Hroot as [Hroot _].
    apply andb_prop in Hroot. apply Hroot.
  - induction IH as [| [k v] ms Hv _ IHms]; [destruct H |].
    apply in_app_or in H. destruct H as [H | H]; [| now apply IHms].
    destruct (String.eqb prefix EmptyString && isLanguageCode k
              && typeofObject v); [destruct H |].
    assert (Hleaf :
      forall text,
        In e (flattenLeaf (normalizeDuplicateKeyParts (prefixed prefix k))
                text filePath l' keyPositions) ->
        langShape (lang e)
        /\ exists s text0 l0,
             In e (flattenLeaf (normalizeDuplicateKeyParts s) text0 filePath
                     l0 keyPositions)).
    { intros text Ht. split; [| eauto]. unfold flattenLeaf in Ht.
      destruct (200 <? _); [destruct Ht |].
      destruct Ht as [<- | []]. exact Hl'. }
    destruct v as [| s | text | b | ms']; simpl in H;
      try (now destruct H); try (now apply Hleaf in H).
    + destruct b; now apply Hleaf in H.
    + eapply Hv; [exact Hl' | exact H].
Qed.

Lemma flattenYaml_leaf :
  forall obj prefix filePath l keyPositions e,
    In e (flattenYaml obj prefix filePath l keyPositions) ->
    exists s text l',
      In e (flattenLeaf (normalizeDuplicateKeyParts s) text filePath l'
              keyPositions).
Proof.
  induction obj as [| s | text | b | members IH] using yaml_members_ind;
    intros prefix filePath l keyPositions e H; try destruct H.
  simpl in H. apply in_app_or in H.
  set (l' := if falsy l then getLangFromFileName (basename filePath) else l)
    in *.
  destruct H as [H | H].
  - induction IH as [| [k v] ms Hv _ IHms]; [destruct H |].
    apply in_app_or in H. destruct H as [H | H]; [| now apply IHms].
    destruct (String.eqb prefix EmptyString && isLanguageCode k
              && typeofObject v); [| destruct H].
    eapply Hv. exact H.
  - induction IH as [| [k v] ms Hv _ IHms]; [destruct H |].
    apply in_app_or in H. destruct H as [H | H]; [| now apply IHms].
    destruct (String.eqb prefix EmptyString && isLanguageCode k
              && typeofObject v); [destruct H |].
    destruct v as [| s | text | b | ms']; simpl in H;
      try (now destruct H).
    + eauto.
    + eauto.
    + destruct b; eauto.
    + eapply Hv. exact H.
Qed.

Lemma flattenYaml_entry :
  forall obj prefix filePath l keyPositions e,
    In e (flattenYaml obj prefix filePath l keyPositions) ->
    file e = filePath
    /\ fileLine e = findLineNumber keyPositions (key e)
    /\ noAdjacentRepeat (segments (key e)) = true
    /\ String.length (key e) <= 200.
Proof.
  intros obj prefix filePath l keyPositions e H.
  pose proof (flattenYaml_keys _ _ _ _ _ _ H) as [Hrep Hlen].
  destruct (flattenYaml_leaf _ _ _ _ _ _ H) as (s & text & l' & Hp).
  unfold flattenLeaf in Hp.
  destruct (200 <? _); [destruct Hp |]. destruct Hp as [<- | []].
  simpl. auto.
Qed.

(** X12.  Every entry [flattenYaml] pushes carries the path of the file, the
    line [findLineNumber] gives for its key, and a key without adjacent
    repeated segments that is at most 200 characters long. *)
Theorem flattenYaml_pushed :
  forall obj prefix filePath l keyPositions,
    Forall
      (fun e =>
         file e = filePath
         /\ fileLine e = findLineNumber keyPositions (key e)
         /\ noAdjacentRepeat (segments (key e)) = true
         /\ String.length (key e) <= 200)
      (flattenYaml obj prefix filePath l keyPositions).
Proof.
  intros obj prefix filePath l keyPositions. apply Forall_forall.
  intros e He. eapply flattenYaml_entry. exact He.
Qed.

(** X17.  When [getLangFromFileName] returns a code, the code is two
    lower-case letters: the first two characters of the file name in lower
    case, which a dot or an underscore follows. *)
Theorem getLangFromFileName_code :
  forall fileName c,
    getLangFromFileName fileName = Some c ->
    isLanguageCode c = true
    /\ toLowerCase c = c
    /\ exists first sep rest,
         fileName = (first ++ String sep rest)%string
         /\ c = toLowerCase first
         /\ (sep = "."%char \/ sep = "_"%char).
Proof.
  intros fileName c H. unfold getLangFromFileName in H.
  destruct (matchLangPrefix fileName) as [p |] eqn:Hp; [| discriminate].
  inversion H; subst. apply matchLangPrefix_code in Hp.
  destruct Hp as (Hc & sep & rest & Hf & Hs).
  split; [now apply toLowerCase_code |]. split.
  - clear. induction p as [| a p IH]; simpl; [reflexivity |].
    now rewrite lowerChar_idempotent, IH.
  - exists p, sep, rest. auto.
Qed.

Lemma getLangFromFileName_code_witness :
  isLanguageCode "ko" = true
  /\ toLowerCase "ko" = "ko"
  /\ exists first sep rest,
       "KO_users.yml" = (first ++ String sep rest)%string
       /\ "ko" = toLowerCase first
       /\ (sep = "."%char \/ sep = "_"%char).
Proof.
  apply (getLangFromFileName_code "KO_users.yml" "ko"). reflexivity.
Defined.

(** ** A scan pass: languages *)

Lemma matchLangKey_split :
  forall k c rest,
    matchLangKey k = Some (c, rest) ->
    isLanguageCode c = true
    /\ k = (c ++ "." ++ rest)%string
    /\ rest <> EmptyString.
Proof.
  intros [| a [| b [| d r]]] c rest H; simpl in H; try discriminate.
  destruct (isLetter a && isLetter b) eqn:Hl; simpl in H; [| discriminate].
  destruct (Ascii.eqb_spec d "."%char) as [-> | _]; simpl in H;
    [| discriminate].
  destruct (String.eqb_spec r EmptyString) as [-> | Hr]; simpl in H;
    [discriminate |].
  destruct (allChars _ r); [| discriminate].
  inversion H; subst. auto.
Qed.

Lemma normalizeEntry_shape :
  forall entry, langShape (lang entry) -> langShape (lang (normalizeEntry entry)).
Proof.
  intros entry H. unfold normalizeEntry.
  destruct (matchLangKey (key entry)) as [[c rest] |] eqn:Hm; [| exact H].
  destruct (falsy (lang entry) || _); [| exact H].
  simpl. apply toLowerCase_code. now apply matchLangKey_split in Hm.
Qed.

Lemma parseYamlFile_shape :
  forall filePath l content outcome e,
    langShape l ->
    In e (parseYamlFile filePath l content outcome) ->
    langShape (lang e) /\ file e = filePath.
Proof.
  intros filePath l content outcome e Hl H. unfold parseYamlFile in H.
  pose proof (inferred_shape l filePath Hl) as Hl'.
  destruct outcome as [doc |].
  - split.
    + eapply flattenYaml_pushes; [exact Hl' | exact H].
    + eapply flattenYaml_entry. exact H.
  - unfold attemptPartialParsing in H. apply partialLoop_entries in H.
    destruct H as (Hf & Hlang & _). rewrite Hlang. auto.
Qed.

Lemma endsWith_append :
  forall s t p, endsWith t p = true -> endsWith (s ++ t) p = true.
Proof.
  intros s t p H. apply endsWith_iff in H. destruct H as (u & ->).
  apply endsWith_iff. exists (s ++ u)%string.
  now rewrite append_assoc_string.
Qed.

Lemma scanNode_shape :
  forall node dirPath e,
    In e (scanNode dirPath node) ->
    langShape (lang e)
    /\ startsWith (file e) (dirPath ++ "/") = true
    /\ (endsWith (file e) ".yml" = true \/ endsWith (file e) ".yaml" = true).
Proof.
  induction node as [name content outcome | name files IH]
    using fsNode_files_ind; intros dirPath e H; simpl in H.
  - destruct (endsWith name ".yml" || endsWith name ".yaml") eqn:Hext;
      [| destruct H].
    apply parseYamlFile_shape in H.
    + destruct H as [Hs Hf]. split; [exact Hs |]. rewrite Hf.
      unfold pathJoin. split.
      * apply startsWith_iff. exists name.
        now rewrite append_assoc_string.
      * apply orb_prop in Hext.
        destruct Hext as [Hx | Hx]; [left | right];
          rewrite <- append_assoc_string; now apply endsWith_append.
    + destruct (matchLangPrefix name) as [c |] eqn:Hp; simpl.
      * now apply matchLangPrefix_code in Hp.
      * apply getLangFromFileName_shape.
  - apply in_flat_map in H. destruct H as (f & Hf & He).
    rewrite Forall_forall in IH.
    destruct (IH f Hf _ _ He) as (Hs & Hstart & Hend).
    split; [exact Hs |]. split; [| exact Hend].
    apply startsWith_iff in Hstart. destruct Hstart as (t & ->).
    apply startsWith_iff. unfold pathJoin.
    exists (name ++ "/" ++ t)%string.
    now rewrite !append_assoc_string.
Qed.

Lemma normalizeEntry_keeps :
  forall entry,
    value (normalizeEntry entry) = value entry
    /\ file (normalizeEntry entry) = file entry
    /\ fileLine (normalizeEntry entry) = fileLine entry
    /\ endsWith (key entry) (key (normalizeEntry entry)) = true.
Proof.
  intros entry. unfold normalizeEntry.
  assert (Hself : endsWith (key entry) (key entry) = true).
  { apply endsWith_iff. exists EmptyString. reflexivity. }
  destruct (matchLangKey (key entry)) as [[c rest] |] eqn:Hm; [| auto].
  destruct (falsy (lang entry) || _); [| auto].
  simpl. repeat split. apply matchLangKey_split in Hm.
  destruct Hm as (_ & Hk & _). apply endsWith_iff.
  exists (c ++ ".")%string. rewrite Hk. now rewrite append_assoc_string.
Qed.

Lemma scan_entry_shape :
  forall roots e,
    In e (scanLocaleFiles roots) ->
    langShape (lang e)
    /\ (exists root, In root roots
                     /\ startsWith (file e) (fst root ++ "/") = true)
    /\ (endsWith (file e) ".yml" = true \/ endsWith (file e) ".yaml" = true).
Proof.
  intros roots e He.
  unfold scanLocaleFiles, postProcess, normalizeI18nKeys in He.
  apply in_map_iff in He. destruct He as (e0 & <- & He).
  apply removeDuplicateEntries_subset in He.
  unfold scanWorkspaceFolders in He. apply in_flat_map in He.
  destruct He as ([dirPath files] & Hr & He). simpl in He.
  unfold scanDirectory in He. apply in_flat_map in He.
  destruct He as (f & Hf & He). apply scanNode_shape in He.
  destruct He as (Hs & Hstart & Hend).
  destruct (normalizeEntry_keeps e0) as (_ & Hfile & _).
  rewrite Hfile. split; [now apply normalizeEntry_shape |].
  split; [| exact Hend]. exists (dirPath, files). auto.
Qed.

(** ** Post-processing as a whole *)

Lemma uniqueMapOf_length :
  forall l, List.length (uniqueMapOf l) <= List.length l.
Proof.
  induction l as [| e l IH] using rev_ind; [reflexivity |].
  rewrite uniqueMapOf_snoc, length_app. simpl.
  assert (H : forall (m : Map I18nEntry) k v,
             List.length (mapSet k v m) <= S (List.length m)).
  { induction m as [| [k' v'] m IHm]; intros k v; simpl; [lia |].
    destruct (String.eqb k' k); simpl; [lia |]. specialize (IHm k v). lia. }
  specialize (H (uniqueMapOf l) (uniqueKey e) e). lia.
Qed.

(** X15.  Post-processing returns no more entries than it is given, and
    each entry it returns is the normalization of one it was given: the same
    value, file and line, and a key the given key ends with. *)
Theorem postProcess_provenance :
  forall l,
    List.length (postProcess l) <= List.length l
    /\ forall e,
         In e (postProcess l) ->
         exists e0,
           In e0 l /\ e = normalizeEntry e0
           /\ value e = value e0 /\ file e = file e0
           /\ fileLine e = fileLine e0
           /\ endsWith (key e0) (key e) = true.
Proof.
  intros l. split.
  - unfold postProcess, normalizeI18nKeys, removeDuplicateEntries, mapValues.
    rewrite !length_map. apply uniqueMapOf_length.
  - intros e He. unfold postProcess, normalizeI18nKeys in He.
    apply in_map_iff in He. destruct He as (e0 & <- & He).
    apply removeDuplicateEntries_subset in He.
    exists e0. destruct (normalizeEntry_keeps e0) as (Hv & Hf & Hl & Hk).
    auto 10.
Qed.

(** X16.  An entry whose key is two letters, a dot and a rest that is not
    empty and holds no line terminator, and whose language is not those two
    letters in lower case, comes out of normalization with the rest as its
    key and the two letters in lower case as its language; value, file and
    line are kept. *)
Theorem normalizeEntry_moves_code :
  forall a b rest v f l fl,
    isLetter a = true -> isLetter b = true ->
    rest <> EmptyString ->
    allChars (fun x => negb (isLineTerminator x)) rest = true ->
    l <> Some (toLowerCase (String a (String b EmptyString))) ->
    normalizeEntry
      (mkEntry (String a (String b (String "."%char rest))) v f l fl)
    = mkEntry rest v f
        (Some (toLowerCase (String a (String b EmptyString)))) fl.
Proof.
  intros a b rest v f l fl Ha Hb Hrest Hlt Hl.
  unfold normalizeEntry. simpl key. unfold matchLangKey.
  rewrite Ha, Hb, Ascii.eqb_refl, Hlt.
  apply String.eqb_neq in Hrest. rewrite Hrest. simpl.
  destruct l as [l |]; simpl.
  - destruct (String.eqb_spec l EmptyString) as [-> | Hne]; [reflexivity |].
    simpl.
    destruct (String.eqb_spec l
                (String (lowerChar a) (String (lowerChar b) EmptyString)))
      as [-> | _]; [| reflexivity].
    exfalso. apply Hl. reflexivity.
  - reflexivity.
Qed.

Lemma normalizeEntry_moves_code_witness :
  normalizeEntry
    (mkEntry "en.user.name" "Name" "/app/config/locales/app.yml" None
       (Some 2))
  = mkEntry "user.name" "Name" "/app/config/locales/app.yml" (Some "en")
      (Some 2).
Proof.
  apply (normalizeEntry_moves_code "e" "n" "user.name" "Name"
           "/app/config/locales/app.yml" None (Some 2));
    try reflexivity; discriminate.
Defined.

(** X14.  Every entry a scan returns has no language or a two-letter code as
    its language, and comes from a file below one of the scanned roots whose
    name ends in [.yml] or [.yaml]. *)
Theorem scan_entries_shape :
  forall roots,
    Forall
      (fun e =>
         langShape (lang e)
         /\ (exists root,
                In root roots
                /\ startsWith (file e) (fst root ++ "/") = true)
         /\ (endsWith (file e) ".yml" = true
             \/ endsWith (file e) ".yaml" = true))
      (scanLocaleFiles roots).
Proof.
  intros roots. apply Forall_forall. intros e He.
  now apply scan_entry_shape.
Qed.

(** X4.  When the parser accepts every file, every key of the index a scan
    returns is free of adjacent repeated segments and at most 200 characters
    long. *)
Theorem scan_of_parsed_files :
  forall roots,
    List.forallb (fun r => List.forallb allParsed (snd r)) roots = true ->
    Forall
      (fun e =>
         noAdjacentRepeat (segments (key e)) = true
         /\ String.length (key e) <= 200)
      (scanLocaleFiles roots).
Proof. intros roots H. exact (parsed_scan_keys roots H). Qed.

Lemma scan_of_parsed_files_witness :
  Forall
    (fun e =>
       noAdjacentRepeat (segments (key e)) = true
       /\ String.length (key e) <= 200)
    (scanLocaleFiles twiceTree).
Proof. apply scan_of_parsed_files. reflexivity. Defined.

(** ** Exact lookup *)

Lemma find_none_iff {A} (p : A -> bool) :
  forall l, List.find p l = None <-> forall x, In x l -> p x = false.
Proof.
  intros l. split; [apply find_none |].
  induction l as [| x l IH]; intros H; simpl; [reflexivity |].
  rewrite (H x (or_introl eq_refl)). apply IH. intros; apply H; now right.
Qed.

Lemma findExactKey_some :
  forall entries k preferredLang e,
    findExactKey entries k preferredLang = Some e ->
    In e entries /\ key e = k /\ In e (findByKey entries k).
Proof.
  intros entries k preferredLang e H.
  assert (Hin : In e entries /\ key e = k).
  { unfold findExactKey in H.
    destruct (falsy preferredLang).
    - apply find_some in H. destruct H as [Hi Hk].
      apply String.eqb_eq in Hk. auto.
    - destruct (List.find _ entries) as [p |] eqn:Hp.
      + inversion H; subst. apply find_some in Hp. destruct Hp as [Hi Hk].
        apply andb_prop in Hk. destruct Hk as [Hk _].
        apply String.eqb_eq in Hk. auto.
      + apply find_some in H. destruct H as [Hi Hk].
        apply String.eqb_eq in Hk. auto. }
  destruct Hin as [Hi Hk]. repeat split; auto.
  unfold findByKey.
  assert (Hf : In e (List.filter (fun entry => String.eqb (key entry) k)
                       entries)).
  { apply filter_In. split; [exact Hi |]. now apply String.eqb_eq. }
  destruct (List.filter _ entries) as [| x xs]; [destruct Hf | exact Hf].
Qed.

Lemma findExactKey_missing :
  forall entries k preferredLang,
    findExactKey entries k preferredLang = None <->
    forall e, In e entries -> key e <> k.
Proof.
  intros entries k preferredLang. unfold findExactKey. split.
  - intros H e He Hk.
    assert (Hany : List.find (fun entry => String.eqb (key entry) k) entries
                   = None).
    { destruct (falsy preferredLang); [exact H |].
      destruct (List.find (fun entry => _ && _) entries); [discriminate |].
      exact H. }
    rewrite find_none_iff in Hany. specialize (Hany e He).
    apply String.eqb_neq in Hany. contradiction.
  - intros H.
    assert (Hany : List.find (fun entry => String.eqb (key entry) k) entries
                   = None).
    { apply find_none_iff. intros e He. apply String.eqb_neq. now apply H. }
    rewrite Hany. destruct (falsy preferredLang); [reflexivity |].
    destruct (List.find (fun entry => _ && _) entries) as [p |] eqn:Hp;
      [| reflexivity].
    apply find_some in Hp. destruct Hp as [Hi Hk].
    apply andb_prop in Hk. destruct Hk as [Hk _].
    apply String.eqb_eq in Hk. exfalso. now apply (H p).
Qed.

(** X19.  When the index has an entry with the key asked for and the
    preferred language, [findExactKey] returns an entry with that key and
    that language. *)
Theorem findExactKey_prefers :
  forall entries k p x,
    p <> EmptyString ->
    In x entries -> key x = k -> lang x = Some p ->
    exists e,
      findExactKey entries k (Some p) = Some e
      /\ key e = k /\ lang e = Some p.
Proof.
  intros entries k p x Hp Hx Hk Hl. unfold findExactKey. simpl.
  apply String.eqb_neq in Hp. rewrite Hp.
  destruct (List.find (fun entry => _ && _) entries) as [e |] eqn:Hf.
  - exists e. split; [reflexivity |]. apply find_some in Hf.
    destruct Hf as [_ Hf]. apply andb_prop in Hf. destruct Hf as [H1 H2].
    apply String.eqb_eq in H1. split; [exact H1 |].
    destruct (lang e) as [l |]; [| discriminate].
    apply String.eqb_eq in H2. now subst.
  - exfalso. rewrite find_none_iff in Hf. specialize (Hf x Hx).
    rewrite Hl, Hk, !String.eqb_refl in Hf. discriminate.
Qed.

Lemma findExactKey_prefers_witness :
  exists e,
    findExactKey welcomes "welcome" (Some "ko") = Some e
    /\ key e = "welcome" /\ lang e = Some "ko".
Proof.
  apply (findExactKey_prefers welcomes "welcome" "ko"
           (mkEntry "welcome" "Annyeong" "/app/config/locales/ko.yml"
              (Some "ko") (Some 2))).
  - discriminate.
  - right. left. reflexivity.
  - reflexivity.
  - reflexivity.
Defined.

(** ** The Key Resolver, case by case *)

Lemma includes_split :
  forall p s, includes s p = true -> exists u v, s = (u ++ p ++ v)%string.
Proof.
  intros p. induction s as [| c s IH]; intros H; cbn [includes] in H;
    apply orb_prop in H; destruct H as [H | H].
  - apply prefix_split in H. destruct H as (t & ->). now exists EmptyString, t.
  - discriminate.
  - apply prefix_split in H. destruct H as (t & ->). now exists EmptyString, t.
  - destruct (IH H) as (u & v & ->). now exists (String c u), v.
Qed.

Lemma includes_append :
  forall p u v, includes (u ++ p ++ v) p = true.
Proof.
  intros p. induction u as [| c u IH]; intros v.
  - change (EmptyString ++ p ++ v)%string with (p ++ v)%string.
    destruct (p ++ v)%string eqn:E; cbn [includes]; rewrite <- E,
      prefix_append; reflexivity.
  - change (String c u ++ p ++ v)%string with (String c (u ++ p ++ v)%string).
    cbn [includes]. rewrite IH. apply orb_true_r.
Qed.

(* A text in which [includes] finds no marker is not cut by one. *)
Lemma includes_false_split :
  forall p s,
    includes s p = false -> forall u v, s <> (u ++ p ++ v)%string.
Proof.
  intros p s H u v E. rewrite E, includes_append in H. discriminate.
Qed.

(* [key.split('#{')[0]] is the text before the first marker. *)
Lemma beforeFirst_marker :
  forall before rest,
    (forall u v, before <> (u ++ "#{" ++ v)%string) ->
    beforeFirst "#{" (before ++ "#{" ++ rest) = before.
Proof.
  induction before as [| c b IH]; intros rest Hno.
  - change (EmptyString ++ "#{" ++ rest)%string
      with (String "#" (String "{" rest)).
    cbn [beforeFirst].
    change (String "#" (String "{" rest)) with ("#{" ++ rest)%string.
    now rewrite prefix_append.
  - change (String c b ++ "#{" ++ rest)%string
      with (String c (b ++ "#{" ++ rest)%string).
    cbn [beforeFirst].
    destruct (String.prefix "#{" (String c (b ++ "#{" ++ rest))) eqn:Ep.
    + exfalso. apply prefix_split in Ep. destruct Ep as (t & Et).
      simpl in Et. injection Et as Ec Et. destruct b as [| d b].
      * simpl in Et. discriminate.
      * simpl in Et. injection Et as Ed _. subst c d.
        now apply (Hno EmptyString b).
    + f_equal. apply IH. intros u v ->. now apply (Hno (String c u) v).
Qed.

(* The base key is that text, less one dot at its end. *)
Lemma baseKeyOf_marker :
  forall before rest base,
    (forall u v, before <> (u ++ "#{" ++ v)%string) ->
    before = (base ++ ".")%string
    \/ base = before /\ (forall u, before <> (u ++ ".")%string) ->
    baseKeyOf (before ++ "#{" ++ rest) = base.
Proof.
  intros before rest base Hno Hbase. unfold baseKeyOf.
  rewrite (beforeFirst_marker _ _ Hno).
  destruct Hbase as [-> | [-> Hdot]].
  - replace (endsWith (base ++ ".") ".") with true
      by (symmetry; apply endsWith_iff; now exists base).
    rewrite length_append. simpl String.length.
    replace (String.length base + 1 - 1) with (String.length base) by lia.
    apply substring_prefix.
  - destruct (endsWith before ".") eqn:E; [| reflexivity].
    apply endsWith_iff in E. destruct E as (t & Et). now destruct (Hdot t).
Qed.

(** C7.  [findByKey] returns the entries whose key is the given key when
    there are any.  Otherwise, let the given key be cut at its first marker
    [#{], and let the base key be the text before the marker, less one dot
    at its end if it ends in a dot.  If the base key is not empty and some
    entry's key starts with it, [findByKey] returns one entry: the first, in
    the order of the index, among the entries whose key starts with the base
    key and whose key length is nearest to the length of the given key, the
    distance being the absolute difference of the two lengths.  In every
    other case (no marker, an empty base key, no entry that starts with the
    base key) it returns the empty list; being a total function it has no
    failing case. *)
Theorem findByKey_resolution :
  forall (entries : list I18nEntry) (k : string),
    let exact := List.filter (fun e => String.eqb (key e) k) entries in
    let distance := fun e : I18nEntry =>
      Z.abs (Z.of_nat (String.length (key e))
             - Z.of_nat (String.length k)) in
    (exact <> [] -> findByKey entries k = exact)
    /\ (forall before rest base,
          exact = [] ->
          k = (before ++ "#{" ++ rest)%string ->
          (forall u v, before <> (u ++ "#{" ++ v)%string) ->
          before = (base ++ ".")%string
          \/ base = before /\ (forall u, before <> (u ++ ".")%string) ->
          base <> EmptyString ->
          (exists x t, In x entries /\ key x = (base ++ t)%string) ->
          exists front e back,
            entries = front ++ e :: back
            /\ findByKey entries k = [e]
            /\ (exists t, key e = (base ++ t)%string)
            /\ (forall x t, In x front -> key x = (base ++ t)%string ->
                            (distance e < distance x)%Z)
            /\ (forall x t, In x back -> key x = (base ++ t)%string ->
                            (distance e <= distance x)%Z))
    /\ (exact = [] ->
        (forall u v, k <> (u ++ "#{" ++ v)%string)
        \/ (exists before rest base,
              k = (before ++ "#{" ++ rest)%string
              /\ (forall u v, before <> (u ++ "#{" ++ v)%string)
              /\ (before = (base ++ ".")%string
                  \/ base = before
                     /\ (forall u, before <> (u ++ ".")%string))
              /\ (base = EmptyString
                  \/ forall x t, In x entries ->
                                 key x <> (base ++ t)%string)) ->
        findByKey entries k = []).
Proof.
  intros entries k exact distance.
  destruct (findByKey_cases entries k) as (Hexact & Hbase & Hnone).
  fold exact in Hexact, Hbase, Hnone. split; [exact Hexact | split].
  - intros before rest base Hnil Hk Hno Hdot Hne (x & t & Hx & Hkx).
    assert (Eb : baseKeyOf k = base)
      by (rewrite Hk; now apply baseKeyOf_marker).
    rewrite Eb in Hbase.
    destruct Hbase as (front & e & back & Hl & Hr & Hs & Hf & Hb); auto.
    + rewrite Hk. apply includes_append.
    + exists x. split; [exact Hx |]. apply startsWith_iff. now exists t.
    + exists front, e, back. split; [exact Hl | split; [exact Hr |]].
      split; [now apply startsWith_iff | split].
      * intros y s Hy Hky. apply (Hf y Hy). apply startsWith_iff.
        now exists s.
      * intros y s Hy Hky. apply (Hb y Hy). apply startsWith_iff.
        now exists s.
  - intros Hnil H. apply Hnone; [exact Hnil |].
    destruct H as [H | (before & rest & base & Hk & Hno & Hdot & H)].
    + left. destruct (includes k "#{") eqn:E; [| reflexivity].
      apply includes_split in E. destruct E as (u & v & E).
      now destruct (H u v).
    + right. assert (Eb : baseKeyOf k = base)
        by (rewrite Hk; now apply baseKeyOf_marker).
      rewrite Eb. destruct H as [H | H]; [now left | right].
      intros x Hx. destruct (startsWith (key x) base) eqn:E; [| reflexivity].
      apply startsWith_iff in E. destruct E as (t & E).
      now destruct (H x t Hx).
Qed.

Lemma findByKey_resolution_witness :
  findByKey greetingIndex "user.greeting.casual"
  = List.filter (fun e => String.eqb (key e) "user.greeting.casual")
      greetingIndex
  /\ (findByKey greetingIndex "user.greeting.#{type}"
      = [ mkEntry "user.greeting.formal" "Good day"
            "/app/config/locales/en.yml" (Some "en") (Some 3) ]
      /\ exists front e back,
           greetingIndex = front ++ e :: back
           /\ findByKey greetingIndex "user.greeting.#{type}" = [e]
           /\ (exists t, key e = ("user.greeting" ++ t)%string)
           /\ (forall x t, In x front ->
                 key x = ("user.greeting" ++ t)%string ->
                 (Z.abs (Z.of_nat (String.length (key e))
                         - Z.of_nat (String.length "user.greeting.#{type}"))
                  < Z.abs (Z.of_nat (String.length (key x))
                           - Z.of_nat
                               (String.length "user.greeting.#{type}")))%Z)
           /\ (forall x t, In x back ->
                 key x = ("user.greeting" ++ t)%string ->
                 (Z.abs (Z.of_nat (String.length (key e))
                         - Z.of_nat (String.length "user.greeting.#{type}"))
                  <= Z.abs (Z.of_nat (String.length (key x))
                            - Z.of_nat
                                (String.length "user.greeting.#{type}")))%Z))
  /\ findByKey greetingIndex "user.farewell" = []
  /\ findByKey greetingIndex "admin.#{role}" = [].
Proof.
  split; [| split; [split |]; [| | split]].
  - apply (proj1 (findByKey_resolution greetingIndex "user.greeting.casual")).
    vm_compute. discriminate.
  - reflexivity.
  - apply (proj1 (proj2 (findByKey_resolution greetingIndex
                           "user.greeting.#{type}"))
             "user.greeting." "type}" "user.greeting").
    + reflexivity.
    + reflexivity.
    + apply includes_false_split. reflexivity.
    + left. reflexivity.
    + discriminate.
    + eexists. exists EmptyString. split; [left; reflexivity | reflexivity].
  - apply (proj2 (proj2 (findByKey_resolution greetingIndex "user.farewell"))).
    + reflexivity.
    + left. apply includes_false_split. reflexivity.
  - apply (proj2 (proj2 (findByKey_resolution greetingIndex "admin.#{role}"))).
    + reflexivity.
    + right. exists "admin.", "role}", "admin". split; [reflexivity |].
      split; [apply includes_false_split; reflexivity |].
      split; [left; reflexivity |]. right.
      intros x t [<- | [<- | [<- | []]]]; discriminate.
Defined.

(** ** [findByKey] never leaves the index *)

Lemma sortBy_in {A} (cmp : A -> A -> Z) :
  forall l x, In x (sortBy cmp l) <-> In x l.
Proof.
  intros l x. split; apply Permutation_in;
    [apply sortBy_perm | symmetry; apply sortBy_perm].
Qed.

Lemma findByKey_in :
  forall entries k e,
    In e (findByKey entries k) ->
    In e entries
    /\ (key e = k
        \/ (includes k "#{" = true /\ baseKeyOf k <> EmptyString
            /\ startsWith (key e) (baseKeyOf k) = true
            /\ findByKey entries k = [e]
            /\ forall x, In x entries -> key x <> k)).
Proof.
  intros entries k e H. unfold findByKey in *.
  destruct (List.filter (fun entry => String.eqb (key entry) k) entries)
    as [| x xs] eqn:Hexact.
  - simpl in *. destruct (includes k "#{"); [| destruct H].
    destruct (0 <? String.length (baseKeyOf k)) eqn:Hlen; [| destruct H].
    destruct (0 <? List.length _); [| destruct H].
    destruct (sortBy _ _) as [| first rest] eqn:Hs; [destruct H |].
    destruct H as [<- | []].
    assert (Hin : In first (sortBy
               (fun a b => (keyDistance k a - keyDistance k b)%Z)
               (List.filter
                  (fun entry => startsWith (key entry) (baseKeyOf k))
                  entries))) by (rewrite Hs; now left).
    apply sortBy_in in Hin. apply filter_In in Hin. destruct Hin as [Hi Hst].
    split; [exact Hi |]. right. repeat split; auto.
    + intros Hb. rewrite Hb in Hlen. discriminate.
    + intros y Hy Hk.
      assert (Hf : In y (List.filter
                           (fun entry => String.eqb (key entry) k) entries)).
      { apply filter_In. split; [exact Hy |]. now apply String.eqb_eq. }
      rewrite Hexact in Hf. destruct Hf.
  - change (In e (x :: xs)) in H. rewrite <- Hexact in H.
    apply filter_In in H.
    destruct H as [Hi Hk]. apply String.eqb_eq in Hk. auto.
Qed.

(** ** Entries by language and their counts *)

Lemma mapGet_mapSet {V} (k : string) (v : V) :
  forall m k',
    mapGet k' (mapSet k v m)
    = if String.eqb k k' then Some v else mapGet k' m.
Proof.
  induction m as [| [k0 v0] m IH]; intros k'; simpl.
  - reflexivity.
  - destruct (String.eqb_spec k0 k) as [-> | Hne]; simpl.
    + destruct (String.eqb k k'); reflexivity.
    + rewrite IH. destruct (String.eqb_spec k0 k') as [-> | Hne'].
      * destruct (String.eqb_spec k k'); [congruence | reflexivity].
      * reflexivity.
Qed.

Lemma statisticsOf_count :
  forall l m c,
    countOf c (statisticsOf l m)
    = countOf c m
      + List.length
          (List.filter (fun e => String.eqb (langOrUnknown e) c) l).
Proof.
  induction l as [| e l IH]; intros m c; simpl; [lia |].
  rewrite IH. unfold countOf. rewrite mapGet_mapSet.
  destruct (String.eqb_spec (langOrUnknown e) c) as [<- | Hne]; simpl; lia.
Qed.

Lemma statisticsOf_present :
  forall l m c,
    mapGet c (statisticsOf l m) = None <->
    mapGet c m = None /\ forall e, In e l -> langOrUnknown e <> c.
Proof.
  induction l as [| e l IH]; intros m c; simpl.
  - split; [intros H; split; [exact H | intros ? []] | intros [H _]; exact H].
  - rewrite IH, mapGet_mapSet.
    destruct (String.eqb_spec (langOrUnknown e) c) as [<- | Hne].
    + split; [intros [H _]; discriminate |].
      intros [_ H]. exfalso. apply (H e); auto.
    + split.
      * intros [Hm H]. split; [exact Hm |].
        intros x [<- | Hx]; [exact Hne | now apply H].
      * intros [Hm H]. split; [exact Hm |]. intros x Hx. apply H. now right.
Qed.

Lemma languageStatistics_count :
  forall entries c,
    countOf c (getLanguageStatistics entries)
    = List.length
        (List.filter (fun e => String.eqb (langOrUnknown e) c) entries)
    /\ (c <> EmptyString -> c <> "unknown" ->
        countOf c (getLanguageStatistics entries)
        = List.length (getEntriesByLang entries c)).
Proof.
  intros entries c. unfold getLanguageStatistics.
  fold (statisticsOf entries []). rewrite statisticsOf_count.
  split; [reflexivity |]. intros H1 H2. unfold getEntriesByLang. simpl.
  f_equal. apply List.filter_ext. intros e.
  assert (Hu : String.eqb "unknown" c = false)
    by (apply String.eqb_neq; congruence).
  assert (He : String.eqb EmptyString c = false)
    by (apply String.eqb_neq; congruence).
  unfold langOrUnknown, hasLang. destruct (lang e) as [l |]; [| exact Hu].
  destruct (String.eqb_spec l EmptyString) as [-> | Hl]; [| reflexivity].
  now rewrite Hu, He.
Qed.

(** X18.  [findExactKey] returns an entry of the index whose key is the key
    asked for, one that [findByKey] returns as well, and it returns nothing
    exactly when no entry of the index has that key, whatever language is
    preferred. *)
Theorem findExactKey_result :
  forall entries k preferredLang,
    (forall e,
        findExactKey entries k preferredLang = Some e ->
        In e entries /\ key e = k /\ In e (findByKey entries k))
    /\ (findExactKey entries k preferredLang = None <->
        forall e, In e entries -> key e <> k).
Proof.
  intros entries k preferredLang. split.
  - intros e. apply findExactKey_some.
  - apply findExactKey_missing.
Qed.

(** X20.  [findByKey] returns entries of the index only.  Each has the key
    asked for, or else the key asked for holds the marker, no entry has it
    as its key, and the entry returned, the only one, starts with the base
    key, which is not empty. *)
Theorem findByKey_sound :
  forall entries k,
    Forall
      (fun e =>
         In e entries
         /\ (key e = k
             \/ (includes k "#{" = true /\ baseKeyOf k <> EmptyString
                 /\ startsWith (key e) (baseKeyOf k) = true
                 /\ findByKey entries k = [e]
                 /\ forall x, In x entries -> key x <> k)))
      (findByKey entries k).
Proof.
  intros entries k. apply Forall_forall. intros e He.
  now apply findByKey_in.
Qed.

(** ** The language codes of the index *)

Lemma existsb_eqb_in :
  forall l x, List.existsb (String.eqb x) l = true <-> In x l.
Proof.
  intros l x. rewrite existsb_exists. split.
  - intros (y & Hy & He). apply String.eqb_eq in He. now subst.
  - intros H. exists x. split; [exact H | apply String.eqb_refl].
Qed.

Lemma setAdd_in :
  forall s x y, In y (setAdd x s) <-> y = x \/ In y s.
Proof.
  intros s x y. unfold setAdd.
  destruct (List.existsb (String.eqb x) s) eqn:He.
  - apply existsb_eqb_in in He. split; [auto | intros [-> | H]; auto].
  - rewrite in_app_iff. simpl. split; intros [H | H]; auto.
    destruct H as [<- | []]. now left.
Qed.

Lemma setAdd_NoDup : forall s x, NoDup s -> NoDup (setAdd x s).
Proof.
  intros s x H. unfold setAdd.
  destruct (List.existsb (String.eqb x) s) eqn:He; [exact H |].
  apply NoDup_app; [exact H | constructor; [intros [] | constructor] |].
  intros y Hy [<- | []]. apply existsb_eqb_in in Hy. congruence.
Qed.

Lemma langSetOf_snoc :
  forall l e,
    langSetOf (l ++ [e])
    = if falsy (lang e) then langSetOf l
      else match lang e with
           | Some c => setAdd c (langSetOf l)
           | None => langSetOf l
           end.
Proof. intros l e. unfold langSetOf. now rewrite fold_left_app. Qed.

Lemma langSetOf_spec :
  forall l,
    NoDup (langSetOf l)
    /\ forall c,
         In c (langSetOf l) <->
         c <> EmptyString /\ exists e, In e l /\ lang e = Some c.
Proof.
  induction l as [| e l [Hnd Hin]] using rev_ind.
  - split; [constructor |]. intros c. split; [intros [] |].
    intros (_ & e & [] & _).
  - rewrite langSetOf_snoc. destruct (lang e) as [c0 |] eqn:Hl; simpl.
    + destruct (String.eqb_spec c0 EmptyString) as [-> | Hne].
      * split; [exact Hnd |]. intros c. rewrite Hin. split.
        -- intros (Hc & x & Hx & Hlx). split; [exact Hc |].
           exists x. split; [apply in_or_app; now left | exact Hlx].
        -- intros (Hc & x & Hx & Hlx). split; [exact Hc |].
           apply in_app_or in Hx. destruct Hx as [Hx | [<- | []]].
           ++ eauto.
           ++ congruence.
      * split; [now apply setAdd_NoDup |]. intros c.
        rewrite setAdd_in, Hin. split.
        -- intros [-> | (Hc & x & Hx & Hlx)].
           ++ split; [exact Hne |]. exists e.
              split; [apply in_or_app; right; now left | exact Hl].
           ++ split; [exact Hc |]. exists x.
              split; [apply in_or_app; now left | exact Hlx].
        -- intros (Hc & x & Hx & Hlx).
           apply in_app_or in Hx. destruct Hx as [Hx | [<- | []]].
           ++ right. eauto.
           ++ left. congruence.
    + split; [exact Hnd |]. intros c. rewrite Hin. split.
      * intros (Hc & x & Hx & Hlx). split; [exact Hc |].
        exists x. split; [apply in_or_app; now left | exact Hlx].
      * intros (Hc & x & Hx & Hlx). split; [exact Hc |].
        apply in_app_or in Hx. destruct Hx as [Hx | [<- | []]].
        -- eauto.
        -- congruence.
Qed.

Lemma compareStrings_le :
  forall x y, (compareStrings x y <= 0)%Z -> String.leb x y = true.
Proof.
  intros x y. unfold compareStrings, String.leb.
  destruct (String.compare x y); intros H; try reflexivity; exfalso; lia.
Qed.

Lemma compareStrings_gt :
  forall x y, (0 < compareStrings x y)%Z -> String.leb y x = true.
Proof.
  intros x y. unfold compareStrings, String.leb.
  rewrite (String.compare_antisym x y).
  destruct (String.compare y x); simpl; intros H; try reflexivity;
    exfalso; lia.
Qed.

Lemma getLanguageCodes_unfold :
  forall entries,
    getLanguageCodes entries
    = List.filter (fun l => List.existsb (String.eqb l) (langSetOf entries))
        priorityLangs
      ++ sortBy compareStrings
           (List.filter
              (fun l => negb (List.existsb (String.eqb l) priorityLangs))
              (langSetOf entries)).
Proof. reflexivity. Qed.

Lemma getLanguageCodes_in :
  forall entries c,
    In c (getLanguageCodes entries) <-> In c (langSetOf entries).
Proof.
  intros entries c. rewrite getLanguageCodes_unfold, in_app_iff.
  rewrite sortBy_in, !filter_In, existsb_eqb_in, negb_true_iff.
  split.
  - intros [[_ H] | [H _]]; exact H.
  - intros H.
    destruct (List.existsb (String.eqb c) priorityLangs) eqn:Hp.
    + left. split; [now apply existsb_eqb_in | exact H].
    + right. auto.
Qed.

Lemma getLanguageCodes_NoDup :
  forall entries, NoDup (getLanguageCodes entries).
Proof.
  intros entries. rewrite getLanguageCodes_unfold.
  destruct (langSetOf_spec entries) as [Hnd _].
  apply NoDup_app.
  - apply NoDup_filter. unfold priorityLangs.
    repeat constructor; simpl; intuition discriminate.
  - eapply Permutation_NoDup; [symmetry; apply sortBy_perm |].
    now apply NoDup_filter.
  - intros x Hx Hy. apply filter_In in Hx. apply sortBy_in in Hy.
    apply filter_In in Hy. destruct Hx as [Hx _]. destruct Hy as [_ Hy].
    apply negb_true_iff in Hy. apply existsb_eqb_in in Hx. congruence.
Qed.

(** X22.  [getLanguageCodes] lists each language of the index once, and
    nothing else.  The codes [ko], [en] and [ja] that occur come first, in
    that order; the other languages follow in ascending order. *)
Theorem getLanguageCodes_order :
  forall entries,
    NoDup (getLanguageCodes entries)
    /\ (forall c,
          In c (getLanguageCodes entries) <->
          c <> EmptyString /\ exists e, In e entries /\ lang e = Some c)
    /\ exists others,
         getLanguageCodes entries
         = List.filter
             (fun l => List.existsb (String.eqb l) (getLanguageCodes entries))
             ["ko"; "en"; "ja"]
           ++ others
         /\ Sorted (fun a b => String.leb a b = true) others
         /\ forall c, In c others -> ~ In c ["ko"; "en"; "ja"].
Proof.
  intros entries. split; [apply getLanguageCodes_NoDup |]. split.
  - intros c. rewrite getLanguageCodes_in. apply langSetOf_spec.
  - exists (sortBy compareStrings
              (List.filter
                 (fun l => negb (List.existsb (String.eqb l) priorityLangs))
                 (langSetOf entries))).
    split; [| split].
    + rewrite getLanguageCodes_unfold at 1. f_equal.
      apply List.filter_ext. intros l.
      destruct (List.existsb (String.eqb l) (langSetOf entries)) eqn:H1;
        destruct (List.existsb (String.eqb l) (getLanguageCodes entries))
          eqn:H2; try reflexivity.
      * apply existsb_eqb_in in H1. apply getLanguageCodes_in in H1.
        apply existsb_eqb_in in H1. congruence.
      * apply existsb_eqb_in in H2. apply getLanguageCodes_in in H2.
        apply existsb_eqb_in in H2. congruence.
    + apply sortBy_sorted;
        [apply compareStrings_le | apply compareStrings_gt].
    + intros c Hc Hp. apply sortBy_in in Hc. apply filter_In in Hc.
      destruct Hc as [_ Hc]. apply negb_true_iff in Hc.
      apply existsb_eqb_in in Hp. unfold priorityLangs in Hc. congruence.
Qed.

(** ** Entries in the order of the language codes *)

Lemma hasKnownLang_in :
  forall codes e,
    hasKnownLang codes e = true <->
    exists l, lang e = Some l /\ l <> EmptyString /\ In l codes.
Proof.
  intros codes e. unfold hasKnownLang. destruct (lang e) as [l |].
  - rewrite andb_true_iff, negb_true_iff, String.eqb_neq, existsb_eqb_in.
    split.
    + intros [H1 H2]. exists l. auto.
    + intros (l' & Hl & H1 & H2). inversion Hl; subst. auto.
  - split; [discriminate | intros (l & H & _); discriminate].
Qed.

Lemma flat_map_app_perm {A B} (f g : A -> list B) :
  forall l,
    Permutation (List.flat_map (fun x => f x ++ g x) l)
      (List.flat_map f l ++ List.flat_map g l).
Proof.
  induction l as [| a l IH]; simpl; [constructor |].
  rewrite IH, <- !app_assoc. apply Permutation_app_head.
  rewrite !app_assoc. apply Permutation_app_tail. apply Permutation_app_comm.
Qed.

Lemma hasLang_unique :
  forall e c c', hasLang c e = true -> hasLang c' e = true -> c = c'.
Proof.
  intros e c c'. unfold hasLang. destruct (lang e); [| discriminate].
  intros H1 H2. apply String.eqb_eq in H1, H2. congruence.
Qed.

Lemma group_of_one :
  forall codes (k : bool) e,
    NoDup codes ->
    List.flat_map (fun l => if k && hasLang l e then [e] else []) codes
    = if k && List.existsb (fun l => hasLang l e) codes then [e] else [].
Proof.
  intros codes k e Hnd. destruct k; simpl.
  - induction codes as [| c codes IH]; [reflexivity |].
    inversion Hnd as [| ? ? Hni Hnd']; subst. simpl. rewrite (IH Hnd').
    destruct (hasLang c e) eqn:Hc; [| reflexivity]. simpl.
    destruct (List.existsb (fun l => hasLang l e) codes) eqn:Hex;
      [| reflexivity].
    exfalso. apply existsb_exists in Hex. destruct Hex as (l & Hl & He).
    rewrite (hasLang_unique _ _ _ Hc He) in Hni. contradiction.
  - induction codes as [| c codes IH]; [reflexivity |].
    inversion Hnd; subst. simpl. auto.
Qed.

Lemma groups_cons :
  forall codes (known : I18nEntry -> bool) e es,
    NoDup codes ->
    Permutation
      (List.flat_map
         (fun l => List.filter (fun x => known x && hasLang l x) (e :: es))
         codes)
      ((if known e && List.existsb (fun l => hasLang l e) codes
        then [e] else [])
       ++ List.flat_map
            (fun l => List.filter (fun x => known x && hasLang l x) es)
            codes).
Proof.
  intros codes known e es Hnd.
  rewrite <- (group_of_one codes (known e) e Hnd).
  rewrite <- flat_map_app_perm.
  erewrite List.flat_map_ext; [reflexivity |].
  intros l. simpl. now destruct (known e && hasLang l e).
Qed.

Lemma sortEntries_perm :
  forall entries codes,
    NoDup codes ->
    Permutation (sortEntriesByLanguage entries codes) entries.
Proof.
  intros entries codes Hnd. unfold sortEntriesByLanguage.
  induction entries as [| e es IH]; simpl.
  - induction codes as [| c codes IHc]; [constructor | simpl].
    inversion Hnd; subst. now apply IHc.
  - rewrite (groups_cons codes (hasKnownLang codes) e es Hnd).
    destruct (hasKnownLang codes e) eqn:Hk; simpl.
    + assert (Hex : List.existsb (fun l => hasLang l e) codes = true).
      { apply hasKnownLang_in in Hk. destruct Hk as (l & Hl & _ & Hin).
        apply existsb_exists. exists l. split; [exact Hin |].
        unfold hasLang. rewrite Hl. apply String.eqb_refl. }
      rewrite Hex. simpl. now constructor.
    + rewrite <- Permutation_middle. now constructor.
Qed.

(** ** Groups by language *)

Lemma groupEntriesByLanguage_snoc :
  forall l e,
    groupEntriesByLanguage (l ++ [e])
    = match lang e with
      | Some c =>
          if String.eqb c EmptyString then groupEntriesByLanguage l
          else
            mapSet c
              (match mapGet c (groupEntriesByLanguage l) with
               | Some g => g
               | None => []
               end ++ [e])
              (groupEntriesByLanguage l)
      | None => groupEntriesByLanguage l
      end.
Proof. intros l e. unfold groupEntriesByLanguage. now rewrite fold_left_app. Qed.

Lemma groupEntriesByLanguage_get :
  forall l c,
    NoDup (List.map fst (groupEntriesByLanguage l))
    /\ mapGet c (groupEntriesByLanguage l)
       = if String.eqb c EmptyString then None
         else match getEntriesByLang l c with
              | [] => None
              | g => Some g
              end.
Proof.
  induction l as [| e l IH] using rev_ind; intros c.
  - split; [constructor |]. simpl. now destruct (String.eqb c EmptyString).
  - rewrite groupEntriesByLanguage_snoc. unfold getEntriesByLang in *.
    rewrite List.filter_app. simpl.
    destruct (IH c) as [Hnd Hget]. unfold hasLang at 2.
    destruct (lang e) as [c0 |] eqn:Hl.
    + destruct (String.eqb_spec c0 EmptyString) as [-> | Hne].
      * split; [exact Hnd |]. rewrite Hget.
        destruct (String.eqb_spec c EmptyString) as [-> | Hc];
          [reflexivity |].
        destruct (String.eqb_spec EmptyString c); [congruence |].
        now rewrite app_nil_r.
      * split; [now apply mapSet_NoDup |]. rewrite mapGet_mapSet.
        destruct (String.eqb_spec c0 c) as [-> | Hcc].
        -- apply String.eqb_neq in Hne. rewrite Hne in *.
           destruct (IH c) as [_ Hg]. rewrite Hne in Hg. rewrite Hg.
           destruct (List.filter (hasLang c) l) as [| x xs]; reflexivity.
        -- rewrite Hget. now rewrite app_nil_r.
    + split; [exact Hnd |]. rewrite Hget. now rewrite app_nil_r.
Qed.

Lemma in_mapGet {V} :
  forall (m : Map V) k v,
    NoDup (List.map fst m) -> In (k, v) m -> mapGet k m = Some v.
Proof.
  induction m as [| [k' v'] m IH]; intros k v Hnd H; [destruct H |].
  inversion Hnd as [| ? ? Hni Hnd']; subst. simpl.
  destruct H as [H | H].
  - inversion H; subst. now rewrite String.eqb_refl.
  - destruct (String.eqb_spec k' k) as [-> | _]; [| now apply IH].
    exfalso. apply Hni. apply in_map_iff. exists (k, v). auto.
Qed.

(** X24.  The groups of [groupEntriesByLanguage] are the languages that
    occur: a language and a list form a group exactly when the language is
    not empty and the list, which is not empty, is what [getEntriesByLang]
    returns for it.  Entries without a language are in no group. *)
Theorem groupEntriesByLanguage_groups :
  forall entries c g,
    In (c, g) (groupEntriesByLanguage entries) <->
    c <> EmptyString /\ g <> [] /\ g = getEntriesByLang entries c.
Proof.
  intros entries c g. destruct (groupEntriesByLanguage_get entries c)
    as [Hnd Hget].
  split.
  - intros H. apply in_mapGet in H; [| exact Hnd]. rewrite Hget in H.
    destruct (String.eqb_spec c EmptyString) as [-> | Hc]; [discriminate |].
    destruct (getEntriesByLang entries c) as [| x xs]; [discriminate |].
    inversion H; subst. repeat split; auto. discriminate.
  - intros (Hc & Hg & ->). apply mapGet_in. rewrite Hget.
    apply String.eqb_neq in Hc. rewrite Hc.
    destruct (getEntriesByLang entries c); [congruence | reflexivity].
Qed.

(** X23.  [sortEntriesByLanguage] with the codes of [getLanguageCodes]
    rearranges the entries: none is lost and none is repeated, whatever index
    the codes were taken from. *)
Theorem sortEntriesByLanguage_perm :
  forall i18nEntries entries,
    Permutation
      (sortEntriesByLanguage entries (getLanguageCodes i18nEntries))
      entries.
Proof.
  intros i18nEntries entries. apply sortEntries_perm.
  apply getLanguageCodes_NoDup.
Qed.

(** ** The entries of a hover *)

Lemma sorted_by_length :
  forall l : list I18nEntry,
    StronglySorted (fun a b => keyLength a <= keyLength b)
      (sortBy
         (fun a b =>
            (Z.of_nat (String.length (key a))
             - Z.of_nat (String.length (key b)))%Z) l).
Proof.
  intros l. apply Sorted_StronglySorted.
  - intros x y z. unfold keyLength. lia.
  - apply sortBy_sorted; intros x y H; unfold keyLength; lia.
Qed.

Lemma stronglySorted_split {A} (R : A -> A -> Prop) :
  forall n l,
    StronglySorted R l ->
    forall x y, In x (List.firstn n l) -> In y (List.skipn n l) -> R x y.
Proof.
  induction n as [| n IH]; intros l Hs x y Hx Hy; [destruct Hx |].
  destruct l as [| a l]; [destruct Hx |].
  inversion Hs as [| ? ? Hs' Hall]; subst. simpl in Hx, Hy.
  destruct Hx as [<- | Hx].
  - rewrite Forall_forall in Hall. apply Hall.
    rewrite <- (firstn_skipn n l). apply in_or_app. now right.
  - now apply (IH l).
Qed.

Lemma stronglySorted_firstn {A} (R : A -> A -> Prop) :
  forall n l, StronglySorted R l -> StronglySorted R (List.firstn n l).
Proof.
  induction n as [| n IH]; intros l Hs; [constructor |].
  destruct l as [| a l]; [constructor |].
  inversion Hs as [| ? ? Hs' Hall]; subst. simpl. constructor; [now apply IH |].
  rewrite Forall_forall in *. intros x Hx. apply Hall.
  rewrite <- (firstn_skipn n l). apply in_or_app. now left.
Qed.

(** X25.  For a key with the marker that no entry has as its key and whose
    base key is not empty, a hover shows at most three of the entries that
    start with the base key: the ones with the shortest keys, shortest
    first, and all of them when there are three or fewer. *)
Theorem hoverEntries_dynamic :
  forall entries k,
    List.filter (fun e => String.eqb (key e) k) entries = [] ->
    includes k "#{" = true ->
    baseKeyOf k <> EmptyString ->
    exists rest,
      Permutation (hoverEntries entries k ++ rest)
        (List.filter (fun e => startsWith (key e) (baseKeyOf k)) entries)
      /\ List.length (hoverEntries entries k) <= 3
      /\ (rest <> [] -> List.length (hoverEntries entries k) = 3)
      /\ StronglySorted (fun a b => keyLength a <= keyLength b)
           (hoverEntries entries k)
      /\ forall x y,
           In x (hoverEntries entries k) -> In y rest ->
           keyLength x <= keyLength y.
Proof.
  intros entries k Hexact Hinc Hbase. unfold hoverEntries.
  rewrite Hexact, Hinc. cbn [List.length Nat.eqb andb].
  destruct (baseKeyOf k) as [| c0 base0] eqn:Eb; [congruence |].
  rewrite <- Eb in *. replace (0 <? String.length (baseKeyOf k)) with true
    by (rewrite Eb; reflexivity).
  set (cmp := fun a b : I18nEntry =>
                (Z.of_nat (String.length (key a))
                 - Z.of_nat (String.length (key b)))%Z).
  set (matches := List.filter
                    (fun e => startsWith (key e) (baseKeyOf k)) entries).
  pose proof (sorted_by_length matches) as Hs. fold cmp in Hs.
  pose proof (sortBy_perm cmp matches) as Hp.
  destruct (sortBy cmp matches) as [| x xs] eqn:Es.
  - exists []. simpl. repeat split; auto; try lia; try constructor.
    congruence.
  - cbn [List.length Nat.ltb Nat.leb].
    exists (List.skipn 3 (x :: xs)). rewrite firstn_skipn.
    repeat split.
    + exact Hp.
    + rewrite length_firstn. lia.
    + intros Hne. rewrite length_firstn.
      assert (3 < List.length (x :: xs)); [| lia].
      destruct (Nat.lt_ge_cases 3 (List.length (x :: xs))) as [|Hle];
        [assumption |].
      rewrite skipn_all2 in Hne by exact Hle. congruence.
    + now apply stronglySorted_firstn.
    + intros a b Ha Hb.
      exact (stronglySorted_split
               (fun a b => keyLength a <= keyLength b) 3 (x :: xs) Hs
               a b Ha Hb).
Qed.

Lemma hoverEntries_dynamic_witness :
  exists rest,
    Permutation (hoverEntries greetings "user.greeting.#{type}" ++ rest)
      (List.filter
         (fun e => startsWith (key e) (baseKeyOf "user.greeting.#{type}"))
         greetings)
    /\ List.length (hoverEntries greetings "user.greeting.#{type}") <= 3
    /\ (rest <> [] ->
        List.length (hoverEntries greetings "user.greeting.#{type}") = 3)
    /\ StronglySorted (fun a b => keyLength a <= keyLength b)
         (hoverEntries greetings "user.greeting.#{type}")
    /\ forall x y,
         In x (hoverEntries greetings "user.greeting.#{type}") ->
         In y rest -> keyLength x <= keyLength y.
Proof.
  apply (hoverEntries_dynamic greetings "user.greeting.#{type}").
  - reflexivity.
  - reflexivity.
  - vm_compute. discriminate.
Defined.

(** ** What a hover prints *)

Lemma length_substring_prefix :
  forall n s, n <= String.length s ->
              String.length (String.substring 0 n s) = n.
Proof.
  induction n as [| n IH]; intros s H.
  - destruct s; reflexivity.
  - destruct s as [| c s]; simpl in *; [lia |]. rewrite IH; lia.
Qed.

Lemma substring_is_prefix :
  forall n s, String.prefix (String.substring 0 n s) s = true.
Proof.
  induction n as [| n IH]; intros s.
  - destruct s; reflexivity.
  - destruct s as [| c s]; simpl; [reflexivity |].
    destruct (ascii_dec c c); [apply IH | congruence].
Qed.

(** X26.  The value a hover prints is at most 150 characters long: a value
    of up to 150 characters is printed as it is, a longer one as its first
    147 characters and three dots. *)
Theorem displayValue_bounded :
  forall v,
    String.length (displayValue v) <= 150
    /\ (String.length v <= 150 -> displayValue v = v)
    /\ (150 < String.length v ->
        String.length (displayValue v) = 150
        /\ endsWith (displayValue v) "..." = true
        /\ exists head,
             displayValue v = (head ++ "...")%string
             /\ String.length head = 147 /\ startsWith v head = true).
Proof.
  intros v. unfold displayValue.
  destruct (150 <? String.length v) eqn:Hlen.
  - apply Nat.ltb_lt in Hlen.
    assert (H147 : String.length (String.substring 0 147 v) = 147)
      by (apply length_substring_prefix; lia).
    repeat split.
    + rewrite length_append, H147. simpl. lia.
    + lia.
    + rewrite length_append, H147. reflexivity.
    + apply endsWith_iff. eauto.
    + exists (String.substring 0 147 v). repeat split; auto.
      apply substring_is_prefix.
  - apply Nat.ltb_ge in Hlen. repeat split; auto; lia.
Qed.

(** ** Alternative resolution, in general *)

Lemma firstPrefixedKey_some :
  forall codes entries k alt,
    firstPrefixedKey codes entries k = Some alt ->
    exists c,
      In c codes /\ alt = (c ++ "." ++ k)%string
      /\ List.filter (locatedAt alt) entries <> [].
Proof.
  induction codes as [| c codes IH]; intros entries k alt H; simpl in H;
    [discriminate |].
  destruct (List.filter (locatedAt (c ++ String "." k)) entries)
    as [| x xs] eqn:Hf; simpl in H.
  - destruct (IH _ _ _ H) as (c' & Hc & Ha & Hn). exists c'.
    split; [now right | auto].
  - inversion H; subst. exists c. repeat split; [now left |].
    simpl. rewrite Hf. discriminate.
Qed.

Lemma locatedAt_iff :
  forall k e,
    locatedAt k e = true <->
    key e = k /\ file e <> EmptyString /\ fileLine e <> None.
Proof.
  intros k e. unfold locatedAt.
  rewrite !andb_true_iff, negb_true_iff, String.eqb_eq, String.eqb_neq.
  destruct (fileLine e); intuition (discriminate || congruence).
Qed.

Lemma alternativeKeyLocations_in :
  forall codes entries k loc,
    In loc (alternativeKeyLocations codes entries k) ->
    exists e,
      In e entries /\ loc = createLocation e
      /\ file e <> EmptyString /\ fileLine e <> None
      /\ ((exists c rest,
              matchLangKey k = Some (c, rest)
              /\ In (toLowerCase c) codes /\ key e = rest)
          \/ (exists c, In c codes /\ key e = (c ++ "." ++ k)%string)).
Proof.
  intros codes entries k loc H. unfold alternativeKeyLocations in H.
  assert (Hprefixed :
    forall alt,
      firstPrefixedKey codes entries k = Some alt ->
      In loc (if String.eqb alt EmptyString then []
              else List.map createLocation
                     (List.filter (locatedAt alt) entries)) ->
      exists e,
        In e entries /\ loc = createLocation e
        /\ file e <> EmptyString /\ fileLine e <> None
        /\ ((exists c rest,
                matchLangKey k = Some (c, rest)
                /\ In (toLowerCase c) codes /\ key e = rest)
            \/ (exists c, In c codes /\ key e = (c ++ "." ++ k)%string))).
  { intros alt Ha Hin. destruct (String.eqb alt EmptyString); [destruct Hin |].
    apply in_map_iff in Hin. destruct Hin as (e & <- & He).
    apply filter_In in He. destruct He as [Hi Hl].
    apply locatedAt_iff in Hl. destruct Hl as (Hk & Hf & Hn).
    apply firstPrefixedKey_some in Ha. destruct Ha as (c & Hc & -> & _).
    exists e. repeat split; auto. right. exists c. auto. }
  destruct (matchLangKey k) as [[c rest] |] eqn:Hm.
  - destruct (List.existsb (String.eqb (toLowerCase c)) codes) eqn:Hex.
    + destruct (String.eqb rest EmptyString); [destruct H |].
      apply in_map_iff in H. destruct H as (e & <- & He).
      apply filter_In in He. destruct He as [Hi Hl].
      apply locatedAt_iff in Hl. destruct Hl as (Hk & Hf & Hn).
      exists e. repeat split; auto. left. exists c, rest.
      repeat split; auto. now apply existsb_eqb_in.
    + destruct (firstPrefixedKey codes entries k) as [alt |] eqn:Ha;
        [| destruct H]. now apply (Hprefixed alt).
  - destruct (firstPrefixedKey codes entries k) as [alt |] eqn:Ha;
      [| destruct H]. now apply (Hprefixed alt).
Qed.

(** ** Go to definition *)

Lemma definitionLocations_hit :
  forall entries k,
    List.filter (locatedAt k) entries <> [] ->
    definitionLocations entries k
    = Some (List.map createLocation (List.filter (locatedAt k) entries)).
Proof.
  intros entries k H. unfold definitionLocations, findExactMatchLocations.
  destruct entries as [| e es]; [simpl in H; congruence |].
  cbn [List.length Nat.eqb]. rewrite length_map.
  destruct (List.filter (locatedAt k) (e :: es)); [congruence | reflexivity].
Qed.

Lemma definitionLocations_some :
  forall entries k locations,
    definitionLocations entries k = Some locations ->
    locations <> []
    /\ forall loc,
         In loc locations ->
         exists e,
           In e entries /\ loc = createLocation e
           /\ file e <> EmptyString /\ fileLine e <> None.
Proof.
  intros entries k locations H. unfold definitionLocations in H.
  destruct (List.length entries =? 0); [discriminate |].
  destruct (0 <? List.length (findExactMatchLocations entries k)) eqn:H1.
  - inversion H; subst. split.
    + intros Hn. rewrite Hn in H1. discriminate.
    + intros loc Hl. unfold findExactMatchLocations in Hl.
      apply in_map_iff in Hl. destruct Hl as (e & <- & He).
      apply filter_In in He. destruct He as [Hi Hl].
      apply locatedAt_iff in Hl. exists e. tauto.
  - destruct (0 <? List.length
                     (findAlternativeKeyLocations entries entries k)) eqn:H2;
      [| discriminate].
    inversion H; subst. split.
    + intros Hn. rewrite Hn in H2. discriminate.
    + intros loc Hl. unfold findAlternativeKeyLocations in Hl.
      apply alternativeKeyLocations_in in Hl.
      destruct Hl as (e & Hi & -> & Hf & Hn & _). exists e. auto.
Qed.

(** ** The call under the cursor *)



(** ** The total of the statistics *)

Lemma total_mapSet :
  forall m k n,
    total (mapSet k n m) + countOf k m = total m + n.
Proof.
  induction m as [| [k' v'] m IH]; intros k n; unfold countOf in *; simpl.
  - lia.
  - destruct (String.eqb k' k); simpl; [lia |]. specialize (IH k n). lia.
Qed.

Lemma statisticsOf_total :
  forall l m, total (statisticsOf l m) = total m + List.length l.
Proof.
  induction l as [| e l IH]; intros m; simpl; [lia |].
  rewrite IH.
  pose proof (total_mapSet m (langOrUnknown e)
                (countOf (langOrUnknown e) m + 1)) as H.
  unfold countOf in *. lia.
Qed.

(** X9.  A path the Position Extractor recorded is found again: looking up
    a recorded path that is not empty returns the line of the table. *)
Theorem recorded_line_found :
  forall content path n,
    path <> EmptyString ->
    In (path, n) (extractKeyPositions content) ->
    findLineNumber (Some (extractKeyPositions content)) path = Some n.
Proof.
  intros content path n Hp Hin. apply findLineNumber_hit; [exact Hp |].
  apply in_mapGet; [apply extractKeyPositions_NoDup | exact Hin].
Qed.

Lemma recorded_line_found_witness :
  findLineNumber (Some (extractKeyPositions nestedText)) "b" = Some 2.
Proof.
  apply (recorded_line_found nestedText "b" 2).
  - discriminate.
  - vm_compute. left. reflexivity.
Defined.

(** X21.  [getLanguageStatistics] counts every entry once: the count of a
    language is the number of entries of that language, an absent or empty
    language counting as unknown, the counts add up to the number of
    entries, and for a language code the count is the number of entries
    [getEntriesByLang] returns. *)
Theorem getLanguageStatistics_counts :
  forall entries c,
    countOf c (getLanguageStatistics entries)
    = List.length
        (List.filter (fun e => String.eqb (langOrUnknown e) c) entries)
    /\ total (getLanguageStatistics entries) = List.length entries
    /\ (c <> EmptyString -> c <> "unknown" ->
        countOf c (getLanguageStatistics entries)
        = List.length (getEntriesByLang entries c)).
Proof.
  intros entries c.
  destruct (languageStatistics_count entries c) as [H1 H2].
  split; [exact H1 |]. split; [| exact H2].
  unfold getLanguageStatistics. fold (statisticsOf entries []).
  now rewrite statisticsOf_total.
Qed.

(** X27.  Every location alternative resolution returns is the location of
    an entry of the list that has a file and a line number, and whose key is
    the key asked for either without its leading language code, a code of
    the list, or with a code of the list and a dot before it. *)
Theorem alternativeKeyLocations_sound :
  forall codes entries k,
    Forall
      (fun loc =>
         exists e,
           In e entries /\ loc = createLocation e
           /\ file e <> EmptyString /\ fileLine e <> None
           /\ ((exists c rest,
                   matchLangKey k = Some (c, rest)
                   /\ In (toLowerCase c) codes /\ key e = rest)
               \/ (exists c, In c codes /\ key e = (c ++ "." ++ k)%string)))
      (alternativeKeyLocations codes entries k).
Proof.
  intros codes entries k. apply Forall_forall. intros loc Hl.
  now apply alternativeKeyLocations_in.
Qed.

(** X28.  Go to definition answers with the locations of all the entries
    that have the key, a file and a line number when there are any; whatever
    it answers is a list that is not empty, of locations of entries of the
    index that have a file and a line number. *)
Theorem definitionLocations_result :
  forall entries k,
    (List.filter (locatedAt k) entries <> [] ->
     definitionLocations entries k
     = Some (List.map createLocation (List.filter (locatedAt k) entries)))
    /\ forall locations,
         definitionLocations entries k = Some locations ->
         locations <> []
         /\ forall loc,
              In loc locations ->
              exists e,
                In e entries /\ loc = createLocation e
                /\ file e <> EmptyString /\ fileLine e <> None.
Proof.
  intros entries k. split.
  - apply definitionLocations_hit.
  - apply definitionLocations_some.
Qed.
